(** * oidc-agent: the local configuration file store

    A shallow embedding of
      - [src/file_io.c]                          (module [FileIo]),
      - [src/utils/file_io/oidc_file_io.c]       (module [OidcFileIo]),
      - [src/utils/file_io/promptCryptFileUtils.c] (module [PromptCrypt]),
    together with the few libc string routines they call (module [CStr]).

    The first part of the file holds the definitions, one module per C
    file; the second part holds the lemmas and the theorems about them. *)

From Stdlib Require Import ZArith Lia Bool List Ascii String.
From stdpp Require Import base option list strings gmap.

Open Scope string_scope.

(** stdpp blocks the unfolding of string concatenation; the proofs below
    compute with it. *)
#[local] Arguments String.append !_ _ / : simpl nomatch.

(* ===================================================================== *)
(** * Part I: definitions                                                 *)
(* ===================================================================== *)

(** ** C strings

    A NUL-terminated [char*] is modelled by the characters that stand
    before its terminator: a [string].  A pointer into such a string is
    the rest of the string from that position on, so that [*pos != 0] is
    "the rest is not empty" and [pos++] drops one character.  A pointer
    that may be [NULL] is an [option string]. *)
Module CStr.

(** [strlen]. *)
Fixpoint strlen (s : string) : nat :=
  match s with
  | EmptyString => 0
  | String _ rest => S (strlen rest)
  end.

(** [p + n] for a pointer [p] into a string with at least [n] characters
    left. *)
Fixpoint advance (n : nat) (p : string) : string :=
  match n, p with
  | S k, String _ rest => advance k rest
  | _, _ => p
  end.

(** [isdigit] of <ctype.h> in the C locale: the characters '0' .. '9'. *)
Definition isdigit (c : ascii) : bool :=
  (48 <=? nat_of_ascii c)%nat && (nat_of_ascii c <=? 57)%nat.

(** [strncmp(p, needle, strlen(needle)) == 0]: the string at [p] starts
    with [needle]. *)
Fixpoint starts_with (needle p : string) : bool :=
  match needle, p with
  | EmptyString, _ => true
  | String a needle', String b p' => Ascii.eqb a b && starts_with needle' p'
  | String _ _, EmptyString => false
  end.

(** [strstr]: a pointer to the first occurrence of [needle] in
    [haystack], or [NULL]. *)
Fixpoint strstr (haystack needle : string) : option string :=
  if starts_with needle haystack then Some haystack
  else match haystack with
       | EmptyString => None
       | String _ rest => strstr rest needle
       end.

(** [strcmp], as the portable C implementations compute it: the
    difference of the first two bytes that differ, read as
    [unsigned char] (the terminator reads as 0). *)
Fixpoint strcmp (l r : string) : Z :=
  match l, r with
  | EmptyString, EmptyString => 0
  | EmptyString, String b _ => 0 - Z.of_nat (nat_of_ascii b)
  | String a _, EmptyString => Z.of_nat (nat_of_ascii a)
  | String a l', String b r' =>
      if Ascii.eqb a b then strcmp l' r'
      else Z.of_nat (nat_of_ascii a) - Z.of_nat (nat_of_ascii b)
  end.

(** An occurrence of [needle] in [s], right after the prefix [pre]. *)
Definition occurs_after (pre needle s : string) : Prop :=
  ∃ rest, s = pre +:+ needle +:+ rest.

(** [name] holds [needle] at one place at most. *)
Definition at_most_one_occurrence (needle name : string) : Prop :=
  ∀ pre pre', occurs_after pre needle name → occurs_after pre' needle name →
              pre = pre'.

(** The strings a [char*] can hold: no character is the terminator. *)
Fixpoint is_cstring (s : string) : bool :=
  match s with
  | EmptyString => true
  | String c rest => negb (nat_of_ascii c =? 0)%nat && is_cstring rest
  end.

(** Modelled from the spec: [strEnds] is declared in
    utils/stringUtils.h, whose implementation is not part of the
    sources at hand.  "[str] ends with the literal [suffix]": the last
    [strlen suffix] characters of [str] are [suffix]. *)
Definition strEnds (str suffix : string) : bool :=
  let lenstr := strlen str in
  let lensuffix := strlen suffix in
  if (lenstr <? lensuffix)%nat then false
  else String.eqb (advance (lenstr - lensuffix) str) suffix.

(** Modelled from the spec: [oidc_strcat] (utils/stringUtils.h) returns
    a fresh string holding the first argument followed by the second
    ("pure string concatenation"), and [NULL] when an argument is
    [NULL]. *)
Definition oidc_strcat (a b : option string) : option string :=
  match a, b with
  | Some x, Some y => Some (x +:+ y)
  | _, _ => None
  end.

End CStr.

(** ** src/utils/file_io/oidc_file_io.c: classification of file names *)
Module Classifier.
Import CStr.

(** The [while] loop over [pos] of [isClientConfigFile]: every
    character from [pos] to the terminator is a digit. *)
Fixpoint only_digits (pos : string) : bool :=
  match pos with
  | EmptyString => true
  | String c rest => if isdigit c then only_digits rest else false
  end.

(** [isClientConfigFile] (the second argument is unused).  The C [int]
    it returns is only ever 0 or 1 and is used as a truth value. *)
Definition isClientConfigFile (filename : string) : bool :=
  let suffix := ".clientconfig" in
  if strEnds filename suffix then true
  else match strstr filename suffix with
       | Some pos => only_digits (advance (strlen suffix) pos)
       | None => false
       end.

(** [isAccountConfigFile]. *)
Definition isAccountConfigFile (filename : string) : bool :=
  if isClientConfigFile filename then false
  else if strEnds filename ".config" then false
  else true.

(** The specification's reading of a client configuration name, kept
    apart from the code: [name] ends with ".clientconfig", or some
    occurrence of ".clientconfig" in [name] is followed by digits only. *)
Fixpoint some_occurrence_then_digits (suffix name : string) : bool :=
  (starts_with suffix name && only_digits (advance (strlen suffix) name))
  || match name with
     | EmptyString => false
     | String _ rest => some_occurrence_then_digits suffix rest
     end.

Definition spec_isClientConfig (name : string) : bool :=
  strEnds name ".clientconfig"
  || some_occurrence_then_digits ".clientconfig" name.

End Classifier.

(** ** The machine: error codes, the file system, the secure heap *)
Module Machine.
Import CStr.

(** [oidc_error_t].  The header that numbers the codes is not part of
    the sources at hand: the codes the three files name stand as
    constructors, any other code as [OIDC_EOTHER]. *)
Inductive oidc_error_t :=
| OIDC_SUCCESS
| OIDC_EERROR
| OIDC_EARGNULLFUNC
| OIDC_EOTHER (code : Z).

(** The values of <errno.h> the model produces. *)
Inductive errno_t := ENOENT | ENOTDIR | EISDIR | EEXIST | EFAULT | ENOMEM.

Inductive res (A : Type) :=
| Ok (a : A)
| Err (e : errno_t).
Arguments Ok {A} a.
Arguments Err {A} e.

(** The two time stamps of [struct stat] the comparators read. *)
Record stat_t := { st_mtime : Z; st_atime : Z }.

#[local] Set Warnings "-register-all".

(** A file system is a tree; a directory keeps its entries in the
    order [readdir] reports them. *)
Inductive node :=
| File (st : stat_t) (content : string)
| Dir (st : stat_t) (entries : list (string * node)).

Fixpoint assoc (name : string) (es : list (string * node)) : option node :=
  match es with
  | [] => None
  | (x, n) :: rest => if String.eqb x name then Some n else assoc name rest
  end.

(** Replace the entry [name], or add it at the end. *)
Fixpoint assoc_set (name : string) (n : node) (es : list (string * node))
  : list (string * node) :=
  match es with
  | [] => [(name, n)]
  | (x, m) :: rest =>
      if String.eqb x name then (x, n) :: rest
      else (x, m) :: assoc_set name n rest
  end.

(** Path names: the components between slashes, empty ones dropped
    (so "a//b" and "a/b/" name what "a/b" names).  [cur] is the
    component being read.  Every path is read from the root, and the
    components "." and ".." stand for no directory: the paths the three
    files build have neither. *)
Definition close_component (cur : string) : list string :=
  match cur with
  | EmptyString => []
  | _ => [cur]
  end.

Fixpoint split_path (s cur : string) : list string :=
  match s with
  | EmptyString => close_component cur
  | String c rest =>
      if Ascii.eqb c "/" then (close_component cur ++ split_path rest "")%list
      else split_path rest (cur +:+ String c "")
  end.

Definition components (path : string) : list string := split_path path "".

(** Path resolution from the root. *)
Fixpoint walk (k : list string) (n : node) : res node :=
  match k with
  | [] => Ok n
  | c :: k' =>
      match n with
      | File _ _ => Err ENOTDIR
      | Dir _ es =>
          match assoc c es with
          | Some child => walk k' child
          | None => Err ENOENT
          end
      end
  end.

(** Rewrite the entries of the directory at [k]. *)
Fixpoint update_dir (k : list string)
    (f : list (string * node) → res (list (string * node)))
    (n : node) : res node :=
  match n with
  | File _ _ => Err ENOTDIR
  | Dir st es =>
      match k with
      | [] => match f es with
              | Ok es' => Ok (Dir st es')
              | Err e => Err e
              end
      | c :: k' =>
          match assoc c es with
          | None => Err ENOENT
          | Some child =>
              match update_dir k' f child with
              | Ok child' => Ok (Dir st (assoc_set c child' es))
              | Err e => Err e
              end
          end
      end
  end.

(** A pointer to a buffer of the secure heap. *)
Definition loc := nat.

(** The state the three files run in. *)
Record world := {
  w_root : node;                 (* the file system, from "/" *)
  w_home : option string;        (* getenv("HOME") *)
  w_clock : Z;                   (* the time new files are stamped with *)
  w_mem : nat;                   (* bytes calloc can still hand out *)
  w_heap : gmap loc string;      (* live buffers of the secure heap *)
  w_oidc_errno : oidc_error_t;   (* the global oidc_errno *)
  w_oidc_error : option errno_t  (* oidc_seterror(strerror(e)) *)
}.

Definition set_root (r : node) (w : world) : world :=
  {| w_root := r; w_home := w_home w; w_clock := w_clock w; w_mem := w_mem w;
     w_heap := w_heap w; w_oidc_errno := w_oidc_errno w;
     w_oidc_error := w_oidc_error w |}.

Definition set_mem (m : nat) (w : world) : world :=
  {| w_root := w_root w; w_home := w_home w; w_clock := w_clock w; w_mem := m;
     w_heap := w_heap w; w_oidc_errno := w_oidc_errno w;
     w_oidc_error := w_oidc_error w |}.

Definition set_heap (h : gmap loc string) (w : world) : world :=
  {| w_root := w_root w; w_home := w_home w; w_clock := w_clock w;
     w_mem := w_mem w; w_heap := h; w_oidc_errno := w_oidc_errno w;
     w_oidc_error := w_oidc_error w |}.

Definition set_oidc_errno (e : oidc_error_t) (w : world) : world :=
  {| w_root := w_root w; w_home := w_home w; w_clock := w_clock w;
     w_mem := w_mem w; w_heap := w_heap w; w_oidc_errno := e;
     w_oidc_error := w_oidc_error w |}.

Definition set_oidc_error (e : errno_t) (w : world) : world :=
  {| w_root := w_root w; w_home := w_home w; w_clock := w_clock w;
     w_mem := w_mem w; w_heap := w_heap w; w_oidc_errno := w_oidc_errno w;
     w_oidc_error := Some e |}.

(** What a C function call comes to: it returns a value and leaves a
    state, it ends the process through [exit], or it has no defined
    behaviour (a null pointer is dereferenced). *)
Inductive outcome (A : Type) :=
| Returns (a : A) (w : world)
| Exits (status : Z)
| Undefined.
Arguments Returns {A} a w.
Arguments Exits {A} status.
Arguments Undefined {A}.

Definition EXIT_FAILURE : Z := 1.

(** *** System calls *)

(** The node a (possibly null) path names; the empty path names
    nothing. *)
Definition resolve (path : option string) (w : world) : res node :=
  match path with
  | None => Err EFAULT
  | Some p =>
      if String.eqb p "" then Err ENOENT
      else walk (components p) (w_root w)
  end.

(** The path names a directory. *)
Definition is_directory (path : string) (w : world) : bool :=
  match resolve (Some path) w with
  | Ok (Dir _ _) => true
  | _ => false
  end.

(** The path names a regular file with this content. *)
Definition file_content (path : string) (w : world) : option string :=
  match resolve (Some path) w with
  | Ok (File _ content) => Some content
  | _ => None
  end.

(** [struct dirent]: the name and the type of an entry. *)
Inductive d_type_t := DT_REG | DT_DIR.
Record dirent := { d_name : string; d_type : d_type_t }.

Definition dirent_of (e : string * node) : dirent :=
  {| d_name := fst e;
     d_type := match snd e with File _ _ => DT_REG | Dir _ _ => DT_DIR end |}.

(** [opendir] of a name that is not null, followed by [readdir] until
    it returns [NULL]: the two pseudo entries, then the entries of the
    directory.  The library reads the name it is given before any
    system call: what a null name comes to is said where a caller can
    pass one. *)
Definition opendir (path : string) (w : world) : res (list dirent) :=
  match resolve (Some path) w with
  | Ok (Dir _ es) =>
      Ok ({| d_name := "."; d_type := DT_DIR |}
          :: {| d_name := ".."; d_type := DT_DIR |}
          :: map dirent_of es)
  | Ok (File _ _) => Err ENOTDIR
  | Err e => Err e
  end.

(** [stat]: fills the buffer when the path names a node, and leaves it
    as it is otherwise. *)
Definition stat (path : option string) (buf : stat_t) (w : world) : stat_t :=
  match resolve path w with
  | Ok (File st _) => st
  | Ok (Dir st _) => st
  | Err _ => buf
  end.

(** The directory part and the last component of a path. *)
Definition parent_and_name (k : list string) : option (list string * string) :=
  match reverse k with
  | [] => None
  | name :: rev_parent => Some (reverse rev_parent, name)
  end.

(** [mkdir(path, mode)]: the parent must be a directory and the name
    must be free. *)
Definition mkdir (path : string) (w : world) : res world :=
  if String.eqb path "" then Err ENOENT
  else
    match parent_and_name (components path) with
    | None => Err EEXIST
    | Some (parent, name) =>
        let now := {| st_mtime := w_clock w; st_atime := w_clock w |} in
        match update_dir parent
                (fun es => match assoc name es with
                           | Some _ => Err EEXIST
                           | None => Ok (es ++ [(name, Dir now [])])%list
                           end)
                (w_root w) with
        | Ok r => Ok (set_root r w)
        | Err e => Err e
        end
    end.

(** [open(path, O_WRONLY | O_CREAT | O_TRUNC, mode)] followed by
    [close], and [fopen(path, "w")] before anything is written: the
    file is created, or emptied when it is there already. *)
Definition open_creat_trunc (path : string) (w : world) : res world :=
  if String.eqb path "" then Err ENOENT
  else
    match parent_and_name (components path) with
    | None => Err EISDIR
    | Some (parent, name) =>
        let now := {| st_mtime := w_clock w; st_atime := w_clock w |} in
        match update_dir parent
                (fun es => match assoc name es with
                           | Some (Dir _ _) => Err EISDIR
                           | Some (File st _) =>
                               Ok (assoc_set name
                                     (File {| st_mtime := w_clock w;
                                              st_atime := st_atime st |} "")
                                     es)
                           | None => Ok (es ++ [(name, File now "")])%list
                           end)
                (w_root w) with
        | Ok r => Ok (set_root r w)
        | Err e => Err e
        end
    end.

(** Writing [text] to the file a successful [fopen(path, "w")] left
    empty. *)
Definition put_content (path text : string) (w : world) : world :=
  match parent_and_name (components path) with
  | None => w
  | Some (parent, name) =>
      match update_dir parent
              (fun es => match assoc name es with
                         | Some (File st _) => Ok (assoc_set name (File st text) es)
                         | _ => Ok es
                         end)
              (w_root w) with
      | Ok r => set_root r w
      | Err _ => w
      end
  end.

(** Modelled from the spec: [secFree] (utils/memory.h) is not part of
    the sources at hand.  It "securely erases" the buffer and releases
    it; [secFree(NULL)] does nothing. *)
Definition secFree (p : option loc) (w : world) : world :=
  match p with
  | None => w
  | Some l => set_heap (delete l (w_heap w)) w
  end.

(** A buffer of the secure heap is live: it has neither been erased nor
    released. *)
Definition live (l : loc) (w : world) : bool :=
  match w_heap w !! l with
  | Some _ => true
  | None => false
  end.

(** What a path shows of the file system: nothing, a directory, or a
    regular file with its content. *)
Inductive seen :=
| Absent
| IsDir
| IsFile (content : string).

Definition look_node (k : list string) (n : node) : seen :=
  match walk k n with
  | Ok (File _ content) => IsFile content
  | Ok (Dir _ _) => IsDir
  | Err _ => Absent
  end.

Definition look (path : string) (w : world) : seen :=
  match resolve (Some path) w with
  | Ok (File _ content) => IsFile content
  | Ok (Dir _ _) => IsDir
  | Err _ => Absent
  end.

(** A change [f] of the entries of a directory touches the entry [name]
    only: at every path but [name] the directory shows what it showed. *)
Definition touches_only (name : string)
    (f : list (string * node) → res (list (string * node))) : Prop :=
  ∀ es es' st, f es = Ok es' →
    ∀ q, q ≠ [name] → look_node q (Dir st es') = look_node q (Dir st es).

Definition look_entry (q : list string) (entry : option node) : seen :=
  match entry with
  | Some child => look_node q child
  | None => Absent
  end.

(** [access(path, F_OK)]: 0 when the path names something, -1
    otherwise. *)
Definition access_F_OK (path : string) (w : world) : Z :=
  match resolve (Some path) w with
  | Ok _ => 0
  | Err _ => -1
  end.

(** The entries of a directory without those called [name]. *)
Fixpoint assoc_remove (name : string) (es : list (string * node))
  : list (string * node) :=
  match es with
  | [] => []
  | (x, n) :: rest =>
      if String.eqb x name then assoc_remove name rest
      else (x, n) :: assoc_remove name rest
  end.

(** [unlink(path)]: removes the name of a regular file; a directory is
    refused. *)
Definition unlink (path : string) (w : world) : res world :=
  if String.eqb path "" then Err ENOENT
  else
    match parent_and_name (components path) with
    | None => Err EISDIR
    | Some (parent, name) =>
        match update_dir parent
                (fun es => match assoc name es with
                           | Some (File _ _) => Ok (assoc_remove name es)
                           | Some (Dir _ _) => Err EISDIR
                           | None => Err ENOENT
                           end)
                (w_root w) with
        | Ok r => Ok (set_root r w)
        | Err e => Err e
        end
    end.

End Machine.

(** ** src/file_io.c *)
Module FileIo.
Import CStr Machine.

(** [calloc(1, n)]: [None] when the allocation fails. *)
Definition calloc (n : nat) (w : world) : option world :=
  if (w_mem w <? n)%nat then None else Some (set_mem (w_mem w - n) w).

(** [fread(buffer, lSize, 1, fp)] on a readable regular file of [lSize]
    bytes: the number of items of [lSize] bytes read, which the C
    standard sets to zero when the size is zero. *)
Definition fread_items (lSize : nat) : Z :=
  if (lSize =? 0)%nat then 0%Z else 1%Z.

(** [readFile]. *)
Definition readFile (path : string) (w : world) : outcome (option string) :=
  match resolve (Some path) w with
  | Err _ =>
      (* fopen failed *)
      Returns None w
  | Ok (Dir _ _) =>
      (* a directory opens for reading, and every read of it fails *)
      Exits EXIT_FAILURE
  | Ok (File _ content) =>
      let lSize := strlen content in
      match calloc (lSize + 1) w with
      | None => Exits EXIT_FAILURE
      | Some w' =>
          if negb (1 =? fread_items lSize)%Z then Exits EXIT_FAILURE
          else Returns (Some content) w'
      end
  end.

(** [writeFile]. *)
Definition writeFile (path text : string) (w : world) : outcome unit :=
  match open_creat_trunc path w with
  | Err _ => Exits EXIT_FAILURE
  | Ok w' => Returns tt (put_content path text w')
  end.

(** [dirExists]. *)
Definition dirExists (path : string) (w : world) : outcome Z :=
  match opendir path w with
  | Ok _ => Returns 1%Z w
  | Err ENOENT => Returns 0%Z w
  | Err _ => Exits EXIT_FAILURE
  end.

(** The propagation policy of the specification, for these three
    operations: whatever the input, the call returns to its caller. *)
Definition returns_to_caller {A} (o : outcome A) : Prop :=
  ∃ a w', o = Returns a w'.

Definition never_terminates_the_process : Prop :=
  (∀ path w, returns_to_caller (readFile path w))
  ∧ (∀ path text w, returns_to_caller (writeFile path text w))
  ∧ (∀ path w, returns_to_caller (dirExists path w)).

(** [free] of a buffer of [n] bytes. *)
Definition free (n : nat) (w : world) : world := set_mem (w_mem w + n) w.

(** [fileDoesExist]. *)
Definition fileDoesExist (path : string) (w : world) : Z :=
  if (access_F_OK path w =? 0)%Z then 1%Z else 0%Z.

(** [removeFile]: what [unlink] returns, 0 or -1. *)
Definition removeFile (path : string) (w : world) : Z * world :=
  match unlink path w with
  | Ok w' => (0%Z, w')
  | Err _ => ((-1)%Z, w)
  end.

(** The locations [getOidcDir] of this file tries (the same table as in
    oidc_file_io.c). *)
Definition possibleLocations : list string :=
  ["~/.config/oidc-agent/"; "~/.oidc-agent/"].

(** The [for] loop of [getOidcDir] over the locations that are left.
    The result of [calloc] is written to without a test: a failed
    allocation leaves no defined behaviour. *)
Fixpoint getOidcDir_loop (home : string) (locations : list string)
    (w : world) : outcome (option string) :=
  match locations with
  | [] => Returns None w
  | location :: rest =>
      let size := strlen home + strlen (advance 1 location) + 1 in
      match calloc size w with
      | None => Undefined
      | Some w1 =>
          let path := home +:+ advance 1 location in
          match dirExists path w1 with
          | Returns r w2 =>
              if (r >? 0)%Z then Returns (Some path) w2
              else getOidcDir_loop home rest (free size w2)
          | Exits status => Exits status
          | Undefined => Undefined
          end
      end
  end.

(** [getOidcDir]; [strlen(home)] has no defined result when HOME is not
    set. *)
Definition getOidcDir (w : world) : outcome (option string) :=
  match w_home w with
  | None => Undefined
  | Some home => getOidcDir_loop home possibleLocations w
  end.

(** The four statements [readOidcFile], [writeOidcFile],
    [oidcFileDoesExist] and [removeOidcFile] start with: the path of
    [filename] in the directory [getOidcDir] returns, in a buffer of
    its own, the buffer of the directory freed.  [strlen(oidc_dir)] has
    no defined result when [getOidcDir] returned [NULL]. *)
Definition oidc_path (filename : string) (w : world) : outcome string :=
  match getOidcDir w with
  | Returns (Some oidc_dir) w1 =>
      match calloc (strlen filename + strlen oidc_dir + 1) w1 with
      | None => Undefined
      | Some w2 =>
          Returns (oidc_dir +:+ filename) (free (strlen oidc_dir + 1) w2)
      end
  | Returns None _ => Undefined
  | Exits status => Exits status
  | Undefined => Undefined
  end.

(** [readOidcFile]. *)
Definition readOidcFile (filename : string) (w : world)
  : outcome (option string) :=
  match oidc_path filename w with
  | Returns path w1 =>
      match readFile path w1 with
      | Returns c w2 => Returns c (free (strlen path + 1) w2)
      | Exits status => Exits status
      | Undefined => Undefined
      end
  | Exits status => Exits status
  | Undefined => Undefined
  end.

(** [writeOidcFile]. *)
Definition writeOidcFile (filename text : string) (w : world) : outcome unit :=
  match oidc_path filename w with
  | Returns path w1 =>
      match writeFile path text w1 with
      | Returns _ w2 => Returns tt (free (strlen path + 1) w2)
      | Exits status => Exits status
      | Undefined => Undefined
      end
  | Exits status => Exits status
  | Undefined => Undefined
  end.

(** [oidcFileDoesExist]. *)
Definition oidcFileDoesExist (filename : string) (w : world) : outcome Z :=
  match oidc_path filename w with
  | Returns path w1 =>
      let b := fileDoesExist path w1 in
      Returns b (free (strlen path + 1) w1)
  | Exits status => Exits status
  | Undefined => Undefined
  end.

(** [removeOidcFile]. *)
Definition removeOidcFile (filename : string) (w : world) : outcome Z :=
  match oidc_path filename w with
  | Returns path w1 =>
      let (r, w2) := removeFile path w1 in
      Returns r (free (strlen path + 1) w2)
  | Exits status => Exits status
  | Undefined => Undefined
  end.

End FileIo.

(** ** src/utils/file_io/oidc_file_io.c *)
Module OidcFileIo.
Import CStr Machine Classifier.

Definition possibleLocations : list string :=
  ["~/.config/oidc-agent/"; "~/.oidc-agent/"].

(** Modelled from the spec: [dirExists] of utils/file_io/file_io.h is
    not part of the sources at hand (src/file_io.c holds an earlier
    version of it).  A candidate "exists as a directory": 1 when the
    directory can be opened, 0 when nothing has that name, -1 on any
    other error.  A null path is taken to be refused with -1, as
    [createDir] below refuses it; [opendir] is not reached with it. *)
Definition dirExists (path : option string) (w : world) : Z :=
  match path with
  | None => -1
  | Some name =>
      match opendir name w with
      | Ok _ => 1
      | Err ENOENT => 0
      | Err _ => -1
      end
  end.

Arguments dirExists : simpl never.

(** Modelled from the spec: [createDir] of utils/file_io/file_io.h is
    not part of the sources at hand.  It "creates that directory"
    through [mkdir] and reports a failure as an error code. *)
Definition createDir (path : option string) (w : world) : oidc_error_t * world :=
  match path with
  | None => (OIDC_EARGNULLFUNC, set_oidc_errno OIDC_EARGNULLFUNC w)
  | Some p =>
      match mkdir p w with
      | Ok w' => (OIDC_SUCCESS, w')
      | Err e => (OIDC_EERROR, set_oidc_errno OIDC_EERROR (set_oidc_error e w))
      end
  end.

(** The body of the [for] loop of [getOidcDir], over the locations
    that are left. *)
Fixpoint getOidcDir_loop (home : option string) (locations : list string)
    (w : world) : option string :=
  match locations with
  | [] => None
  | location :: rest =>
      let path := oidc_strcat home (Some (advance 1 location)) in
      if (dirExists path w >? 0)%Z then path
      else getOidcDir_loop home rest w
  end.

(** [getOidcDir]. *)
Definition getOidcDir (w : world) : option string :=
  getOidcDir_loop (w_home w) possibleLocations w.

(** [createOidcDir].  [ISSUER_CONFIG_FILENAME] comes from
    defines/settings.h, which is not part of the sources at hand, and
    is a parameter.  The "%s/%s" of [oidc_sprintf] has no defined
    result for a null directory. *)
Definition createOidcDir (ISSUER_CONFIG_FILENAME : string) (w : world)
  : outcome oidc_error_t :=
  let home := w_home w in
  let configPath := oidc_strcat home (Some "/.config") in
  let oidcdir :=
    if (dirExists configPath w >? 0)%Z
    then oidc_strcat home (Some (advance 1 (nth 0 possibleLocations "")))
    else oidc_strcat home (Some (advance 1 (nth 1 possibleLocations ""))) in
  let (ret, w1) := createDir oidcdir w in
  match oidcdir with
  | None => Undefined
  | Some dir =>
      let issuerconfig_path := dir +:+ "/" +:+ ISSUER_CONFIG_FILENAME in
      (* int fd = open(...); close(fd); the value of fd is not looked at *)
      let w2 := match open_creat_trunc issuerconfig_path w1 with
                | Ok w' => w'
                | Err _ => w1
                end in
      Returns ret w2
  end.

(** [concatToOidcDir]. *)
Definition concatToOidcDir (filename : string) (w : world) : option string :=
  oidc_strcat (getOidcDir w) (Some filename).

Section Lister.
(** Whether <dirent.h> defines [_DIRENT_HAVE_DTYPE]. *)
Variable DIRENT_HAVE_DTYPE : bool.

(** One turn of the [while] loop of [getFileListForDirIf]: the list
    [lst] after the entry [ent] has been looked at. *)
Definition visit (match_ : string → bool) (ent : dirent)
    (lst : list string) : list string :=
  if negb (strcmp (d_name ent) "." =? 0)%Z
     && negb (strcmp (d_name ent) ".." =? 0)%Z
  then
    if negb DIRENT_HAVE_DTYPE
       || match d_type ent with DT_REG => true | DT_DIR => false end
    then
      if match_ (d_name ent)
      then (lst ++ [d_name ent])%list      (* list_rpush *)
      else lst
    else lst
  else lst.

Fixpoint readdir_loop (match_ : string → bool) (ents : list dirent)
    (lst : list string) : list string :=
  match ents with
  | [] => lst
  | ent :: rest => readdir_loop match_ rest (visit match_ ent lst)
  end.

(** [getFileListForDirIf]: the list, or [NULL] with [oidc_errno]
    set.  [dirname] goes to [opendir] as it comes, and [opendir] reads
    it: with a null [dirname] the call has no defined behaviour. *)
Definition getFileListForDirIf (dirname : option string)
    (match_ : string → bool) (w : world) : outcome (option (list string)) :=
  match dirname with
  | None => Undefined
  | Some name =>
      match opendir name w with
      | Ok ents => Returns (Some (readdir_loop match_ ents [])) w
      | Err e => Returns None (set_oidc_errno OIDC_EERROR (set_oidc_error e w))
      end
  end.

(** The names the lister hands to its predicate: those of the entries
    other than the two pseudo entries, regular files only where the
    entry type is at hand. *)
Definition candidate (ent : dirent) : bool :=
  negb (strcmp (d_name ent) "." =? 0)%Z
  && negb (strcmp (d_name ent) ".." =? 0)%Z
  && (negb DIRENT_HAVE_DTYPE
      || match d_type ent with DT_REG => true | DT_DIR => false end).

Definition candidates (ents : list dirent) : list string :=
  map d_name (List.filter candidate ents).

(** [getAccountConfigFileList], on a machine the process shares with
    others: [others] is what they do to the state after [getOidcDir]
    has found the directory and before [opendir] opens it. *)
Definition getAccountConfigFileList_amid (others : world → world) (w : world)
  : outcome (option (list string)) :=
  let oidc_dir := getOidcDir w in
  getFileListForDirIf oidc_dir isAccountConfigFile (others w).

(** [getAccountConfigFileList], the process alone. *)
Definition getAccountConfigFileList (w : world)
  : outcome (option (list string)) :=
  getAccountConfigFileList_amid (fun w => w) w.

(** The [while] loop of [getClientConfigFileList] over the nodes the
    iterator yields: each value is replaced by [oidc_strcat(oidc_dir,
    old)]. *)
Fixpoint qualify_loop (oidc_dir : option string) (nodes : list string)
  : list (option string) :=
  match nodes with
  | [] => []
  | old :: rest =>
      oidc_strcat oidc_dir (Some old) :: qualify_loop oidc_dir rest
  end.

(** [getClientConfigFileList], on a machine the process shares with
    others ([others] as above).  Modelled from the spec: the list
    container (list/list.h) is not part of the sources at hand;
    [list_iterator_new(list, LIST_HEAD)] starts at [list->head], so
    that it has no defined result on a null list. *)
Definition getClientConfigFileList_amid (others : world → world) (w : world)
  : outcome (list (option string)) :=
  let oidc_dir := getOidcDir w in
  match getFileListForDirIf oidc_dir isClientConfigFile (others w) with
  | Returns None _ => Undefined
  | Returns (Some nodes) w1 => Returns (qualify_loop oidc_dir nodes) w1
  | Exits status => Exits status
  | Undefined => Undefined
  end.

(** [getClientConfigFileList], the process alone. *)
Definition getClientConfigFileList (w : world)
  : outcome (list (option string)) :=
  getClientConfigFileList_amid (fun w => w) w.

End Lister.

(** [compareFilesByName]. *)
Definition compareFilesByName (filename1 filename2 : string) : Z :=
  strcmp filename1 filename2.

(** Modelled from the spec: [secAlloc] (utils/memory.h) is not part of
    the sources at hand; the buffer it returns is zeroed ("the
    timestamp field left at its default/zero value"). *)
Definition secAlloc_stat : stat_t := {| st_mtime := 0; st_atime := 0 |}.

(** [compareOidcFilesByDateModified]. *)
Definition compareOidcFilesByDateModified (filename1 filename2 : string)
    (w : world) : Z :=
  let path1 := concatToOidcDir filename1 w in
  let path2 := concatToOidcDir filename2 w in
  let stat1 := stat path1 secAlloc_stat w in
  let stat2 := stat path2 secAlloc_stat w in
  let ret := 0%Z in
  let ret := if (st_mtime stat1 <? st_mtime stat2)%Z then (-1)%Z else ret in
  let ret := if (st_mtime stat1 >? st_mtime stat2)%Z then 1%Z else ret in
  ret.

(** [compareOidcFilesByDateAccessed]. *)
Definition compareOidcFilesByDateAccessed (filename1 filename2 : string)
    (w : world) : Z :=
  let path1 := concatToOidcDir filename1 w in
  let path2 := concatToOidcDir filename2 w in
  let stat1 := stat path1 secAlloc_stat w in
  let stat2 := stat path2 secAlloc_stat w in
  let ret := 0%Z in
  let ret := if (st_atime stat1 <? st_atime stat2)%Z then (-1)%Z else ret in
  let ret := if (st_atime stat1 >? st_atime stat2)%Z then 1%Z else ret in
  ret.

(** An order as the number a comparator returns for it. *)
Definition sign_of (c : comparison) : Z :=
  match c with
  | Lt => -1
  | Eq => 0
  | Gt => 1
  end.

(** The byte-wise lexical order of two strings, bytes read as
    [unsigned char]. *)
Fixpoint bytewise_compare (a b : string) : comparison :=
  match a, b with
  | EmptyString, EmptyString => Eq
  | EmptyString, String _ _ => Lt
  | String _ _, EmptyString => Gt
  | String x a', String y b' =>
      match Nat.compare (nat_of_ascii x) (nat_of_ascii y) with
      | Eq => bytewise_compare a' b'
      | c => c
      end
  end.

(** The target [createOidcDir] takes. *)
Definition createOidcDir_target (home : string) (w : world) : string :=
  if is_directory (home +:+ "/.config") w
  then home +:+ "/.config/oidc-agent/"
  else home +:+ "/.oidc-agent/".

(** [alwaysOne]. *)
Definition alwaysOne (a : string) : bool := true.

(** [getFileListForDir]. *)
Definition getFileListForDir (DIRENT_HAVE_DTYPE : bool)
    (dirname : option string) (w : world) : outcome (option (list string)) :=
  getFileListForDirIf DIRENT_HAVE_DTYPE dirname alwaysOne w.

End OidcFileIo.

(** ** src/utils/file_io/promptCryptFileUtils.c *)
Module PromptCrypt.
Import CStr Machine.

(** [struct resultWithEncryptionPassword]. *)
Record resultWithEncryptionPassword := {
  result : option string;
  password : option loc
}.

Definition RESULT_WITH_PASSWORD_NULL : resultWithEncryptionPassword :=
  {| result := None; password := None |}.

(** The two decryption functions handed on as a function pointer. *)
Inductive decrypt_fn := decryptFile | decryptOidcFile.

(** The collaborators of utils/promptUtils.h and
    utils/file_io/cryptFileUtils.h.  Their code is not part of the
    sources at hand: every definition below takes them as they come.
    Pointers are options; a password is a buffer of the secure heap. *)
Record collaborators := {
  getEncryptionPasswordFor :
    option string → option string → option string →
    world → option loc * world;
  encryptAndWriteToFile :
    option string → option loc → option string →
    world → oidc_error_t * world;
  encryptAndWriteToOidcFile :
    option string → option loc → option string →
    world → oidc_error_t * world;
  _getDecryptedTextAndPasswordWithPromptFor :
    option string → option string → decrypt_fn → Z → option string →
    world → resultWithEncryptionPassword * world
}.

Definition is_null {A} (p : option A) : bool :=
  match p with
  | None => true
  | Some _ => false
  end.

(** The GNU C conditional with its middle operand left out: [a ?: b]. *)
Definition elvis {A} (a b : option A) : option A :=
  match a with
  | Some _ => a
  | None => b
  end.

(** Modelled from the spec: [oidc_setArgNullFuncError] (oidc_error.h)
    is not part of the sources at hand; it records the "ArgumentError"
    in [oidc_errno]. *)
Definition oidc_setArgNullFuncError (w : world) : world :=
  set_oidc_errno OIDC_EARGNULLFUNC w.

Section WithCollaborators.
Variable C : collaborators.

(** [_promptAndCryptAndWriteToAnyFile]. *)
Definition _promptAndCryptAndWriteToAnyFile
    (text filepath oidc_filename hint suggestedPassword pw_cmd : option string)
    (w : world) : oidc_error_t * world :=
  if is_null text || is_null hint
     || (is_null filepath && is_null oidc_filename)
  then
    let w := oidc_setArgNullFuncError w in
    (w_oidc_errno w, w)
  else
    let encryptAndWriteFnc :=
      if negb (is_null oidc_filename) then encryptAndWriteToOidcFile C
      else encryptAndWriteToFile C in
    let (encryptionPassword, w) :=
      getEncryptionPasswordFor C hint suggestedPassword pw_cmd w in
    if is_null encryptionPassword then (w_oidc_errno w, w)
    else
      let (ret, w) :=
        encryptAndWriteFnc text encryptionPassword
          (elvis oidc_filename filepath) w in
      let w := secFree encryptionPassword w in
      (ret, w).

(** [promptEncryptAndWriteToFile]. *)
Definition promptEncryptAndWriteToFile
    (text filepath hint suggestedPassword pw_cmd : option string)
    (w : world) : oidc_error_t * world :=
  if is_null text || is_null filepath || is_null hint
  then
    let w := oidc_setArgNullFuncError w in
    (w_oidc_errno w, w)
  else
    _promptAndCryptAndWriteToAnyFile text filepath None hint
      suggestedPassword pw_cmd w.

(** [promptEncryptAndWriteToOidcFile]. *)
Definition promptEncryptAndWriteToOidcFile
    (text filename hint suggestedPassword pw_cmd : option string)
    (w : world) : oidc_error_t * world :=
  if is_null text || is_null filename || is_null hint
  then
    let w := oidc_setArgNullFuncError w in
    (w_oidc_errno w, w)
  else
    _promptAndCryptAndWriteToAnyFile text None filename hint
      suggestedPassword pw_cmd w.

(** [getDecryptedFileAndPasswordFor]. *)
Definition getDecryptedFileAndPasswordFor (filepath pw_cmd : option string)
    (w : world) : resultWithEncryptionPassword * world :=
  if is_null filepath
  then (RESULT_WITH_PASSWORD_NULL, oidc_setArgNullFuncError w)
  else
    _getDecryptedTextAndPasswordWithPromptFor C filepath filepath
      decryptFile 0 pw_cmd w.

(** [getDecryptedOidcFileAndPasswordFor]. *)
Definition getDecryptedOidcFileAndPasswordFor (filename pw_cmd : option string)
    (w : world) : resultWithEncryptionPassword * world :=
  if is_null filename
  then (RESULT_WITH_PASSWORD_NULL, oidc_setArgNullFuncError w)
  else
    _getDecryptedTextAndPasswordWithPromptFor C filename filename
      decryptOidcFile 1 pw_cmd w.

(** [getDecryptedFileFor]. *)
Definition getDecryptedFileFor (filepath pw_cmd : option string)
    (w : world) : option string * world :=
  if is_null filepath
  then (None, oidc_setArgNullFuncError w)
  else
    let (res, w) := getDecryptedFileAndPasswordFor filepath pw_cmd w in
    let w := secFree (password res) w in
    (result res, w).

(** [getDecryptedOidcFileFor]. *)
Definition getDecryptedOidcFileFor (filename pw_cmd : option string)
    (w : world) : option string * world :=
  if is_null filename
  then (None, oidc_setArgNullFuncError w)
  else
    let (res, w) := getDecryptedOidcFileAndPasswordFor filename pw_cmd w in
    let w := secFree (password res) w in
    (result res, w).

End WithCollaborators.

End PromptCrypt.

(** ** Sample states and collaborators

    Concrete inputs the statements of Part II are run on. *)
Module Samples.
Import CStr Machine PromptCrypt.

Definition epoch : stat_t := {| st_mtime := 0; st_atime := 0 |}.

Definition world_of (root : node) : world :=
  {| w_root := root; w_home := Some "/home/u"; w_clock := 7;
     w_mem := 4096; w_heap := ∅; w_oidc_errno := OIDC_SUCCESS;
     w_oidc_error := None |}.

Definition tree_of_home (home_entries : list (string * node)) : node :=
  Dir epoch [("home", Dir epoch [("u", Dir epoch home_entries)])].

(** A home directory with nothing in it. *)
Definition fresh_home : world := world_of (tree_of_home []).

(** A home directory with an empty "~/.config". *)
Definition home_with_config : world :=
  world_of (tree_of_home [(".config", Dir epoch [])]).

(** A configuration directory in the legacy place with one account
    configuration, one client configuration, the marker and a
    sub-directory. *)
Definition legacy_store : world :=
  world_of (tree_of_home
    [(".oidc-agent",
      Dir epoch
        [("issuer.config", File epoch "");
         ("work", File {| st_mtime := 5; st_atime := 9 |} "cipher-a");
         ("work.clientconfig", File {| st_mtime := 6; st_atime := 8 |} "cipher-b");
         ("x.clientconfig7", Dir epoch [])])]).

(** The legacy configuration directory, empty. *)
Definition empty_store : world :=
  world_of (tree_of_home [(".oidc-agent", Dir epoch [])]).

(** Another process removes the configuration directory. *)
Definition directory_removed (w : world) : world :=
  set_root (tree_of_home []) w.

(** A user who cancels the prompt: the prompt reports it in
    [oidc_errno] and returns [NULL]. *)
Definition cancelled : oidc_error_t := OIDC_EOTHER 1.

(** An encryption that writes the text, reversed, to the path. *)
Definition sample_encrypt_and_write
    (text : option string) (pw : option loc) (path : option string)
    (w : world) : oidc_error_t * world :=
  match text, pw, path with
  | Some t, Some _, Some p =>
      match open_creat_trunc p w with
      | Ok w' => (OIDC_SUCCESS, put_content p (String.rev t) w')
      | Err e => (OIDC_EERROR, set_oidc_errno OIDC_EERROR (set_oidc_error e w))
      end
  | _, _, _ => (OIDC_EARGNULLFUNC, set_oidc_errno OIDC_EARGNULLFUNC w)
  end.

Definition sample_decrypt
    (a b : option string) (f : decrypt_fn) (isAgentFile : Z)
    (pw_cmd : option string) (w : world)
  : resultWithEncryptionPassword * world :=
  ({| result := Some "plain"; password := Some 1 |},
   set_heap (<[1 := "hunter2"]> (w_heap w)) w).

Definition cancelling_user : collaborators :=
  {| getEncryptionPasswordFor := fun _ _ _ w => (None, set_oidc_errno cancelled w);
     encryptAndWriteToFile := sample_encrypt_and_write;
     encryptAndWriteToOidcFile := sample_encrypt_and_write;
     _getDecryptedTextAndPasswordWithPromptFor := sample_decrypt |}.

(** A user who types a password: the prompt returns it in a fresh
    buffer of the secure heap. *)
Definition typing_user : collaborators :=
  {| getEncryptionPasswordFor :=
       fun _ _ _ w => (Some 0, set_heap (<[0 := "hunter2"]> (w_heap w)) w);
     encryptAndWriteToFile := sample_encrypt_and_write;
     encryptAndWriteToOidcFile := sample_encrypt_and_write;
     _getDecryptedTextAndPasswordWithPromptFor := sample_decrypt |}.

End Samples.

(* ===================================================================== *)
(** * Part II: lemmas and theorems                                        *)
(* ===================================================================== *)

(** ** Strings *)
Section StringFacts.
Import CStr.

Lemma app_empty_r (s : string) : s +:+ "" = s.
Proof. induction s; simpl; congruence. Qed.

Lemma app_assoc_str (a b c : string) : (a +:+ b) +:+ c = a +:+ (b +:+ c).
Proof. induction a; simpl; congruence. Qed.

Lemma strlen_app (a b : string) : strlen (a +:+ b) = strlen a + strlen b.
Proof. induction a; simpl; congruence. Qed.

Lemma advance_app (a b : string) : advance (strlen a) (a +:+ b) = b.
Proof. induction a; simpl; [by destruct b|done]. Qed.

(** Splitting a string at a position. *)
Lemma advance_split (n : nat) (s : string) :
  n <= strlen s → ∃ pre, s = pre +:+ advance n s ∧ strlen pre = n.
Proof.
  revert s; induction n as [|n IH]; intros s Hn.
  - exists "". split; [by destruct s|done].
  - destruct s as [|c s]; simpl in *; [lia|].
    destruct (IH s) as (pre & Hs & Hl); [lia|].
    exists (String c pre). simpl. split; congruence.
Qed.

(** Two splittings of one string at the same position agree. *)
Lemma app_inv_strlen_l (a b c d : string) :
  a +:+ b = c +:+ d → strlen a = strlen c → a = c ∧ b = d.
Proof.
  revert c; induction a as [|x a IH]; intros [|y c]; simpl; try done.
  intros [= -> H] [= Hl]. destruct (IH _ H Hl) as [-> ->]. done.
Qed.

Lemma app_inv_strlen_r (a b c d : string) :
  a +:+ b = c +:+ d → strlen b = strlen d → a = c ∧ b = d.
Proof.
  intros H Hl. apply app_inv_strlen_l; [done|].
  apply (f_equal strlen) in H. rewrite !strlen_app in H. lia.
Qed.

Lemma starts_with_spec (needle p : string) :
  starts_with needle p = true ↔ ∃ rest, p = needle +:+ rest.
Proof.
  revert p; induction needle as [|a needle IH]; intros p; simpl.
  - split; [intros _; by exists p|done].
  - destruct p as [|b p].
    + split; [done|]. by intros [rest [=]].
    + rewrite andb_true_iff, Ascii.eqb_eq, IH. split.
      * intros [-> [rest ->]]. by exists rest.
      * intros [rest [= -> ->]]. split; [done|by exists rest].
Qed.

Lemma strEnds_spec (str suffix : string) :
  strEnds str suffix = true ↔ ∃ pre, str = pre +:+ suffix.
Proof.
  unfold strEnds. destruct (Nat.ltb_spec (strlen str) (strlen suffix)) as [Hlt|Hle].
  - split; [done|]. intros [pre ->]. rewrite strlen_app in Hlt. lia.
  - rewrite String.eqb_eq. split.
    + intros Heq.
      destruct (advance_split (strlen str - strlen suffix) str) as (pre & Hs & _); [lia|].
      exists pre. congruence.
    + intros [pre ->]. rewrite strlen_app.
      replace (strlen pre + strlen suffix - strlen suffix) with (strlen pre) by lia.
      apply advance_app.
Qed.

(** [strstr] finds an occurrence, and no occurrence starts before it. *)
Lemma strstr_Some (haystack needle pos : string) :
  strstr haystack needle = Some pos →
  ∃ pre, haystack = pre +:+ pos ∧ starts_with needle pos = true ∧
         ∀ pre', occurs_after pre' needle haystack → strlen pre <= strlen pre'.
Proof.
  revert pos; induction haystack as [|c h IH]; intros pos; simpl.
  - destruct (starts_with needle "") eqn:E; [|done].
    intros [= <-]. exists "". repeat split; [done|]. simpl; lia.
  - destruct (starts_with needle (String c h)) eqn:E.
    + intros [= <-]. exists "". repeat split; [done|]. simpl; lia.
    + intros H. destruct (IH _ H) as (pre & -> & Hs & Hmin).
      exists (String c pre). repeat split; [done|].
      intros [|c' pre'] [rest Hocc]; simpl in *.
      * assert (starts_with needle (String c (pre +:+ pos)) = true) as E'
          by (apply starts_with_spec; by exists rest).
        congruence.
      * injection Hocc as -> Hocc.
        assert (strlen pre <= strlen pre'); [|lia].
        apply Hmin. by exists rest.
Qed.

Lemma strstr_None (haystack needle : string) :
  strstr haystack needle = None → ∀ pre, ¬ occurs_after pre needle haystack.
Proof.
  induction haystack as [|c h IH]; simpl.
  - destruct (starts_with needle "") eqn:E; [done|].
    intros _ [|c' pre'] [rest Hocc]; simpl in *; [|done].
    assert (starts_with needle "" = true) as E'
      by (apply starts_with_spec; by exists rest).
    congruence.
  - destruct (starts_with needle (String c h)) eqn:E; [done|].
    intros H [|c' pre'] [rest Hocc]; simpl in *.
    + assert (starts_with needle (String c h) = true) as E'
        by (apply starts_with_spec; by exists rest).
      congruence.
    + injection Hocc as -> Hocc. apply (IH H pre'). by exists rest.
Qed.

End StringFacts.

(** ** Classification of file names *)
Section ClassifierFacts.
Import CStr Classifier.

(** A non-empty run of digits ends with a digit. *)
Lemma only_digits_last (s : string) :
  only_digits s = true → s ≠ "" →
  ∃ s' c, s = s' +:+ String c "" ∧ isdigit c = true.
Proof.
  induction s as [|a t IH]; [done|]. simpl.
  destruct (isdigit a) eqn:Ha; [|done]. intros Ht _.
  destruct t as [|b t].
  - by exists "", a.
  - destruct (IH Ht) as (s' & c & -> & Hc); [done|].
    by exists (String a s'), c.
Qed.

Lemma some_occurrence_then_digits_spec (suffix name : string) :
  some_occurrence_then_digits suffix name = true ↔
  ∃ pre rest, name = pre +:+ suffix +:+ rest ∧ only_digits rest = true.
Proof.
  induction name as [|c name IH].
  - simpl. rewrite orb_false_r, andb_true_iff, starts_with_spec. split.
    + intros [[rest Hr] Hd]. exists "", rest. split; [done|].
      by rewrite Hr, advance_app in Hd.
    + intros ([|??] & rest & Hr & Hd); simpl in Hr; [|done].
      split; [by exists rest|]. by rewrite Hr, advance_app.
  - cbn [some_occurrence_then_digits].
    rewrite orb_true_iff, andb_true_iff, starts_with_spec, IH. split.
    + intros [[[rest Hr] Hd]|(pre & rest & -> & Hd)].
      * exists "", rest. split; [done|]. by rewrite Hr, advance_app in Hd.
      * by exists (String c pre), rest.
    + intros ([|c' pre] & rest & Hr & Hd); simpl in Hr.
      * left. split; [by exists rest|]. by rewrite Hr, advance_app.
      * injection Hr as -> ->. right. by exists pre, rest.
Qed.

(** What [isClientConfigFile] accepts, read off the code. *)
Lemma isClientConfigFile_spec (name : string) :
  isClientConfigFile name = true ↔
    (∃ pre, name = pre +:+ ".clientconfig")
    ∨ (∃ pre digits,
          name = pre +:+ ".clientconfig" +:+ digits
          ∧ only_digits digits = true
          ∧ ∀ pre', occurs_after pre' ".clientconfig" name →
                    strlen pre <= strlen pre').
Proof.
  unfold isClientConfigFile. rewrite <- strEnds_spec.
  destruct (strEnds name ".clientconfig") eqn:Hends; [by intuition|].
  destruct (strstr name ".clientconfig") as [pos|] eqn:Hstr.
  - apply strstr_Some in Hstr as (pre & -> & Hsw & Hmin).
    apply starts_with_spec in Hsw as [rest ->].
    change (strlen ".clientconfig") with 13.
    change 13 with (strlen ".clientconfig") at 1. rewrite advance_app.
    split.
    + intros Hd. right. by exists pre, rest.
    + intros [?|(pre' & digits & Heq & Hd & Hmin')]; [done|].
      assert (strlen pre = strlen pre') as Hlen.
      { apply Nat.le_antisymm.
        - apply Hmin. by exists digits.
        - apply Hmin'. by exists rest. }
      apply app_inv_strlen_l in Heq as [_ Heq]; [|done].
      apply app_inv_strlen_l in Heq as [_ ->]; done.
  - split; [done|].
    intros [?|(pre' & digits & Heq & _)]; [done|].
    exfalso. apply (strstr_None _ _ Hstr pre'). by exists digits.
Qed.

(** A name the code accepts ends with ".clientconfig" or with a digit. *)
Lemma isClientConfigFile_shape (name : string) :
  isClientConfigFile name = true →
  (∃ pre, name = pre +:+ ".clientconfig")
  ∨ (∃ pre c, name = pre +:+ String c "" ∧ isdigit c = true).
Proof.
  intros [H|(pre & digits & -> & Hd & _)]%isClientConfigFile_spec; [by left|].
  destruct digits as [|d digits].
  - left. exists pre. by rewrite app_empty_r.
  - right. destruct (only_digits_last _ Hd) as (s' & c & -> & Hc); [done|].
    exists (pre +:+ ".clientconfig" +:+ s'), c.
    by rewrite !app_assoc_str.
Qed.

(** Neither shape ends with ".config", whatever stands in front. *)
Lemma shape_not_dot_config (dir name : string) :
  (∃ pre, name = pre +:+ ".clientconfig")
  ∨ (∃ pre c, name = pre +:+ String c "" ∧ isdigit c = true) →
  strEnds (dir +:+ name) ".config" = false.
Proof.
  intros Hshape. apply not_true_is_false. intros [p Hp]%strEnds_spec.
  destruct Hshape as [[pre ->]|(pre & c & -> & Hc)].
  - change ".clientconfig" with (".clien" +:+ "tconfig") in Hp.
    rewrite <- !app_assoc_str in Hp.
    by apply app_inv_strlen_r in Hp as [_ [=]].
  - change ".config" with (".confi" +:+ "g") in Hp.
    rewrite <- !app_assoc_str in Hp.
    apply app_inv_strlen_r in Hp as [_ [= ->]]; [|done].
    by vm_compute in Hc.
Qed.

Lemma client_not_dot_config (dir name : string) :
  isClientConfigFile name = true → strEnds (dir +:+ name) ".config" = false.
Proof. intros H. by apply shape_not_dot_config, isClientConfigFile_shape. Qed.

(** C1 (amended): [isClientConfigFile name] is true if and only if
    [name] ends with ".clientconfig", or the FIRST occurrence of
    ".clientconfig" in [name] is followed by decimal digits only up to
    the end of the string.  Every name it accepts is one the
    specification's reading (any occurrence) accepts.  The five sample
    names of the specification are classified as it says. *)
Theorem isClientConfigFile_first_occurrence (name : string) :
  (isClientConfigFile name = true ↔
     (∃ pre, name = pre +:+ ".clientconfig")
     ∨ (∃ pre digits,
           name = pre +:+ ".clientconfig" +:+ digits
           ∧ only_digits digits = true
           ∧ ∀ pre', occurs_after pre' ".clientconfig" name →
                     strlen pre <= strlen pre'))
  ∧ (isClientConfigFile name = true → spec_isClientConfig name = true)
  ∧ isClientConfigFile "a.clientconfig" = true
  ∧ isClientConfigFile "a.clientconfig3" = true
  ∧ isClientConfigFile "a.clientconfig03" = true
  ∧ isClientConfigFile "a.clientconfigX" = false
  ∧ isClientConfigFile "a.clientconfigx3" = false.
Proof.
  split; [apply isClientConfigFile_spec|].
  split; [|by vm_compute].
  intros [H|(pre & digits & -> & Hd & _)]%isClientConfigFile_spec;
    unfold spec_isClientConfig; apply orb_true_iff.
  - left. by apply strEnds_spec.
  - right. apply some_occurrence_then_digits_spec. by exists pre, digits.
Qed.

(** C1, as stated, fails: in "a.clientconfigX.clientconfig3" the second
    occurrence of ".clientconfig" is followed by digits only, so the
    specification's reading accepts the name; the code looks at the
    first occurrence, finds 'X' after it, and rejects the name. *)
Lemma isClientConfigFile_misses_later_occurrence :
  isClientConfigFile "a.clientconfigX.clientconfig3" = false
  ∧ "a.clientconfigX.clientconfig3"
    = "a.clientconfigX" +:+ ".clientconfig" +:+ "3"
  ∧ only_digits "3" = true
  ∧ spec_isClientConfig "a.clientconfigX.clientconfig3" = true.
Proof. by vm_compute. Qed.

Lemma isAccountConfigFile_eq (f : string) :
  isAccountConfigFile f
  = negb (isClientConfigFile f) && negb (strEnds f ".config").
Proof.
  unfold isAccountConfigFile.
  by destruct (isClientConfigFile f), (strEnds f ".config").
Qed.

(** C2: [isAccountConfigFile f] is [!isClientConfigFile f] and "[f]
    does not end with .config"; no name is both a client and an account
    configuration; a name that ends with ".config" (the reserved
    marker) is neither. *)
Theorem isAccountConfigFile_disjoint (f : string) :
  isAccountConfigFile f
  = negb (isClientConfigFile f) && negb (strEnds f ".config")
  ∧ isClientConfigFile f && isAccountConfigFile f = false
  ∧ (strEnds f ".config" = true →
     isClientConfigFile f = false ∧ isAccountConfigFile f = false).
Proof.
  split; [apply isAccountConfigFile_eq|]. rewrite isAccountConfigFile_eq.
  destruct (isClientConfigFile f) eqn:Hc.
  - pose proof (client_not_dot_config "" f Hc) as Hn. simpl in Hn.
    rewrite Hn. by repeat split.
  - destruct (strEnds f ".config"); by repeat split.
Qed.

Lemma isAccountConfigFile_disjoint_witness :
  strEnds "issuer.config" ".config" = true
  ∧ isClientConfigFile "issuer.config" = false
  ∧ isAccountConfigFile "issuer.config" = false.
Proof.
  split; [reflexivity|].
  apply (isAccountConfigFile_disjoint "issuer.config"). reflexivity.
Defined.

End ClassifierFacts.

(** ** Resolving and listing the configuration directory *)
Section DirectoryFacts.
Import CStr Machine Classifier OidcFileIo Samples.

Lemma dirExists_pos (path : string) (w : world) :
  (dirExists (Some path) w >? 0)%Z = is_directory path w.
Proof.
  unfold dirExists, opendir, is_directory.
  destruct (resolve (Some path) w) as [[?|?]|[]]; done.
Qed.

(** C6: [getOidcDir] expands the two locations against the home
    directory, "~/.config/oidc-agent/" before "~/.oidc-agent/", and
    returns the first of them that is a directory, [NULL] if none is. *)
Theorem getOidcDir_first_existing (w : world) (home : string) :
  w_home w = Some home →
  let expanded :=
    map (fun location => home +:+ advance 1 location) possibleLocations in
  expanded = [home +:+ "/.config/oidc-agent/"; home +:+ "/.oidc-agent/"]
  ∧ getOidcDir w = List.find (fun path => is_directory path w) expanded.
Proof.
  intros Hhome. split; [done|].
  unfold getOidcDir. rewrite Hhome. simpl.
  rewrite !dirExists_pos.
  by repeat case_match.
Qed.

Lemma getOidcDir_first_existing_witness :
  w_home legacy_store = Some "/home/u"
  ∧ getOidcDir legacy_store = Some "/home/u/.oidc-agent/"
  ∧ getOidcDir fresh_home = None.
Proof.
  split; [reflexivity|].
  destruct (getOidcDir_first_existing legacy_store "/home/u") as [_ ->];
    [reflexivity|].
  destruct (getOidcDir_first_existing fresh_home "/home/u") as [_ ->];
    [reflexivity|].
  split; reflexivity.
Defined.

Lemma readdir_loop_spec (have : bool) (match_ : string → bool)
    (ents : list dirent) (lst : list string) :
  readdir_loop have match_ ents lst
  = (lst ++ List.filter match_ (candidates have ents))%list.
Proof.
  revert lst; induction ents as [|ent ents IH]; intros lst; simpl.
  - by rewrite app_nil_r.
  - rewrite IH. unfold visit, candidates, candidate. simpl.
    destruct (negb (strcmp (d_name ent) "." =? 0)%Z); simpl; [|done].
    destruct (negb (strcmp (d_name ent) ".." =? 0)%Z); simpl; [|done].
    destruct (negb have || _); simpl; [|done].
    destruct (match_ (d_name ent)); simpl; [|done].
    by rewrite <- app_assoc.
Qed.

Lemma qualify_loop_spec (dir : string) (nodes : list string) :
  qualify_loop (Some dir) nodes = map (fun name => Some (dir +:+ name)) nodes.
Proof. induction nodes as [|n nodes IH]; simpl; [done|]. by rewrite IH. Qed.

(** C8: where the configuration directory is found and can be read,
    [getClientConfigFileList] returns the client configuration names
    of the directory, each with the directory in front, and
    [getAccountConfigFileList] returns the account configuration names
    as they are; no element of either list ends with ".config"; both
    lists are empty, and no error is reported, for a directory without
    entries. *)
Theorem config_file_lists (have : bool) (w : world) (dir : string)
    (ents : list dirent) :
  getOidcDir w = Some dir →
  opendir dir w = Ok ents →
  let names := candidates have ents in
  let clients :=
    map (fun name => Some (dir +:+ name)) (List.filter isClientConfigFile names) in
  let accounts := List.filter isAccountConfigFile names in
  getClientConfigFileList have w = Returns clients w
  ∧ getAccountConfigFileList have w = Returns (Some accounts) w
  ∧ (∀ path, In (Some path) clients → strEnds path ".config" = false)
  ∧ (∀ name, In name accounts → strEnds name ".config" = false)
  ∧ (∀ st, resolve (Some dir) w = Ok (Dir st []) →
           clients = [] ∧ accounts = []).
Proof.
  intros Hdir Hopen names clients accounts.
  unfold getClientConfigFileList, getAccountConfigFileList,
    getClientConfigFileList_amid, getAccountConfigFileList_amid,
    getFileListForDirIf.
  rewrite Hdir, Hopen, !readdir_loop_spec, qualify_loop_spec.
  split; [done|]. split; [done|]. split; [|split].
  - intros path (name & [= <-] & [_ Hc]%filter_In)%in_map_iff.
    by apply client_not_dot_config.
  - intros name [_ Ha]%filter_In.
    rewrite isAccountConfigFile_eq in Ha. apply andb_true_iff in Ha as [_ Ha].
    by apply negb_true_iff.
  - intros st Hst. unfold opendir in Hopen. rewrite Hst in Hopen.
    injection Hopen as <-. subst clients accounts names.
    by destruct have.
Qed.

Lemma config_file_lists_witness :
  getClientConfigFileList true legacy_store
  = Returns [Some "/home/u/.oidc-agent/work.clientconfig"] legacy_store
  ∧ getAccountConfigFileList true legacy_store
    = Returns (Some ["work"]) legacy_store
  ∧ getClientConfigFileList true empty_store = Returns [] empty_store
  ∧ getAccountConfigFileList true empty_store = Returns (Some []) empty_store.
Proof.
  destruct (config_file_lists true legacy_store "/home/u/.oidc-agent/" _
              eq_refl eq_refl) as (Hc & Ha & _).
  destruct (config_file_lists true empty_store "/home/u/.oidc-agent/" _
              eq_refl eq_refl) as (Hc' & Ha' & _).
  split; [exact Hc|]. split; [exact Ha|]. split; [exact Hc'|exact Ha'].
Defined.

(** C10: when the configuration directory [getOidcDir] has found
    cannot be opened (another process has removed or replaced it in the
    meantime), [getFileListForDirIf] returns [NULL] with [oidc_errno]
    set: [getAccountConfigFileList] passes the [NULL] and the error on
    as they are, and [getClientConfigFileList] goes on to iterate over
    the null list: it has no defined result, and returns no error.
    When no directory is found, both hand a null name to [opendir] and
    neither has a defined result. *)
Theorem client_list_of_unreadable_directory (have : bool)
    (others : world → world) (w : world) :
  (∀ dir e,
      getOidcDir w = Some dir →
      opendir dir (others w) = Err e →
      getClientConfigFileList_amid have others w = Undefined
      ∧ getAccountConfigFileList_amid have others w
        = Returns None (set_oidc_errno OIDC_EERROR (set_oidc_error e (others w))))
  ∧ (getOidcDir w = None →
     getClientConfigFileList_amid have others w = Undefined
     ∧ getAccountConfigFileList_amid have others w = Undefined).
Proof.
  unfold getClientConfigFileList_amid, getAccountConfigFileList_amid,
    getFileListForDirIf.
  split.
  - intros dir e Hdir Hopen. by rewrite Hdir, Hopen.
  - intros Hdir. by rewrite Hdir.
Qed.

Lemma client_list_of_unreadable_directory_witness :
  getOidcDir legacy_store = Some "/home/u/.oidc-agent/"
  ∧ opendir "/home/u/.oidc-agent/" (directory_removed legacy_store) = Err ENOENT
  ∧ getClientConfigFileList_amid true directory_removed legacy_store = Undefined
  ∧ getAccountConfigFileList_amid true directory_removed legacy_store
    = Returns None
        (set_oidc_errno OIDC_EERROR
           (set_oidc_error ENOENT (directory_removed legacy_store)))
  ∧ getOidcDir fresh_home = None
  ∧ getClientConfigFileList true fresh_home = Undefined
  ∧ getAccountConfigFileList true fresh_home = Undefined.
Proof.
  split; [reflexivity|]. split; [reflexivity|].
  destruct (client_list_of_unreadable_directory true directory_removed
              legacy_store) as [Hgone _].
  destruct (Hgone "/home/u/.oidc-agent/" ENOENT eq_refl eq_refl) as [Hc Ha].
  destruct (client_list_of_unreadable_directory true (fun w => w) fresh_home)
    as [_ Hnone].
  destruct (Hnone eq_refl) as [Hc' Ha'].
  split; [exact Hc|]. split; [exact Ha|]. split; [reflexivity|].
  split; [exact Hc'|exact Ha'].
Defined.

End DirectoryFacts.

(** ** The comparators *)
Section ComparatorFacts.
Import CStr Machine OidcFileIo Samples.

Lemma is_cstring_cons (c : ascii) (s : string) :
  is_cstring (String c s) = true →
  (0 < Z.of_nat (nat_of_ascii c))%Z ∧ is_cstring s = true.
Proof.
  simpl. intros [Hc Hs]%andb_true_iff. split; [|done].
  apply negb_true_iff, Nat.eqb_neq in Hc. lia.
Qed.

(** The sign of [strcmp] is the byte-wise lexical order. *)
Lemma strcmp_sign (a b : string) :
  is_cstring a = true → is_cstring b = true →
  (strcmp a b ?= 0)%Z = bytewise_compare a b.
Proof.
  revert b; induction a as [|x a IH]; intros [|y b] Ha Hb; simpl.
  - done.
  - apply is_cstring_cons in Hb as [Hy _]. by apply Z.compare_lt_iff; lia.
  - apply is_cstring_cons in Ha as [Hx _]. by apply Z.compare_gt_iff; lia.
  - apply is_cstring_cons in Ha as [_ Ha].
    apply is_cstring_cons in Hb as [_ Hb].
    destruct (Ascii.eqb_spec x y) as [->|Hne].
    + rewrite Nat.compare_refl. by apply IH.
    + assert (nat_of_ascii x ≠ nat_of_ascii y) as Hn.
      { intros Heq. apply Hne.
        by rewrite <- (ascii_nat_embedding x), <- (ascii_nat_embedding y), Heq. }
      destruct (Nat.compare_spec (nat_of_ascii x) (nat_of_ascii y)) as [?|?|?];
        [done| |].
      * apply Z.compare_lt_iff; lia.
      * apply Z.compare_gt_iff; lia.
Qed.

(** C9 (amended): the two comparators by date return -1, 0 or 1, the
    order of the two time stamps [stat] reports (zero for a path it
    cannot read); [compareFilesByName] returns what [strcmp] returns: a
    number whose sign is the byte-wise lexical order of the two bare
    names. *)
Theorem comparators_results (filename1 filename2 : string) (w : world) :
  is_cstring filename1 = true → is_cstring filename2 = true →
  (compareFilesByName filename1 filename2 ?= 0)%Z
  = bytewise_compare filename1 filename2
  ∧ In (compareOidcFilesByDateModified filename1 filename2 w) [-1; 0; 1]%Z
  ∧ In (compareOidcFilesByDateAccessed filename1 filename2 w) [-1; 0; 1]%Z
  ∧ compareOidcFilesByDateModified filename1 filename2 w
    = sign_of (st_mtime (stat (concatToOidcDir filename1 w) secAlloc_stat w)
               ?= st_mtime (stat (concatToOidcDir filename2 w) secAlloc_stat w))%Z
  ∧ compareOidcFilesByDateAccessed filename1 filename2 w
    = sign_of (st_atime (stat (concatToOidcDir filename1 w) secAlloc_stat w)
               ?= st_atime (stat (concatToOidcDir filename2 w) secAlloc_stat w))%Z.
Proof.
  intros H1 H2. split; [by apply strcmp_sign|].
  unfold compareOidcFilesByDateModified, compareOidcFilesByDateAccessed.
  set (m1 := st_mtime _). set (m2 := st_mtime _).
  set (a1 := st_atime _). set (a2 := st_atime _).
  destruct (Z.ltb_spec m1 m2), (Z.gtb_spec m1 m2),
           (Z.ltb_spec a1 a2), (Z.gtb_spec a1 a2),
           (Z.compare_spec m1 m2), (Z.compare_spec a1 a2);
    simpl; try lia; repeat split; tauto.
Qed.

Lemma comparators_results_witness :
  is_cstring "work" = true ∧ is_cstring "work.clientconfig" = true
  ∧ (compareFilesByName "work" "work.clientconfig" ?= 0)%Z = Lt
  ∧ compareOidcFilesByDateModified "work" "work.clientconfig" legacy_store
    = (-1)%Z
  ∧ compareOidcFilesByDateAccessed "work" "work.clientconfig" legacy_store
    = 1%Z.
Proof.
  split; [reflexivity|]. split; [reflexivity|].
  destruct (comparators_results "work" "work.clientconfig" legacy_store
              eq_refl eq_refl) as (Hn & _ & _ & Hm & Ha).
  split; [exact Hn|]. split; [exact Hm|exact Ha].
Defined.

(** C9, as stated, fails: [compareFilesByName "a" "c"] is -2, the
    difference of the two bytes, and not one of -1, 0 and 1. *)
Lemma compareFilesByName_not_a_sign :
  compareFilesByName "a" "c" = (-2)%Z
  ∧ (compareFilesByName "a" "c" =? -1)%Z
    || (compareFilesByName "a" "c" =? 0)%Z
    || (compareFilesByName "a" "c" =? 1)%Z = false.
Proof. split; reflexivity. Qed.

End ComparatorFacts.

(** ** src/file_io.c: how failures reach the caller *)
Section FileIoFacts.
Import CStr Machine FileIo Samples.

(** C5 (amended): [readFile] returns [NULL] to its caller when the file
    cannot be opened, and [dirExists] returns 0 when nothing has the
    name and 1 for a directory; a failed allocation and a failed read
    in [readFile], and a failed open in [writeFile], end the process
    with [exit(EXIT_FAILURE)]; in the other cases shown [readFile] and
    [writeFile] return. *)
Theorem file_io_failures (path text : string) (w : world) :
  (∀ e, resolve (Some path) w = Err e → readFile path w = Returns None w)
  ∧ (∀ st content,
        resolve (Some path) w = Ok (File st content) →
        w_mem w < strlen content + 1 →
        readFile path w = Exits EXIT_FAILURE)
  ∧ (∀ st entries,
        resolve (Some path) w = Ok (Dir st entries) →
        readFile path w = Exits EXIT_FAILURE)
  ∧ (∀ st content,
        resolve (Some path) w = Ok (File st content) →
        content ≠ "" → strlen content + 1 <= w_mem w →
        readFile path w
        = Returns (Some content) (set_mem (w_mem w - (strlen content + 1)) w))
  ∧ (∀ e, open_creat_trunc path w = Err e →
          writeFile path text w = Exits EXIT_FAILURE)
  ∧ (∀ w', open_creat_trunc path w = Ok w' →
           writeFile path text w = Returns tt (put_content path text w'))
  ∧ (is_directory path w = true → dirExists path w = Returns 1%Z w)
  ∧ (resolve (Some path) w = Err ENOENT → dirExists path w = Returns 0%Z w).
Proof.
  unfold readFile, writeFile, dirExists, opendir, is_directory, calloc.
  repeat split.
  - by intros e ->.
  - intros st content -> Hmem.
    by destruct (Nat.ltb_spec (w_mem w) (strlen content + 1)); [|lia].
  - by intros st entries ->.
  - intros st content -> Hne Hmem.
    destruct (Nat.ltb_spec (w_mem w) (strlen content + 1)); [lia|].
    by destruct content.
  - by intros e ->.
  - by intros w' ->.
  - by destruct (resolve (Some path) w) as [[]|].
  - by intros ->.
Qed.

Lemma file_io_failures_witness :
  readFile "/home/u/.oidc-agent/none" legacy_store = Returns None legacy_store
  ∧ readFile "/home/u/.oidc-agent/work" legacy_store
    = Returns (Some "cipher-a") (set_mem (4096 - 9) legacy_store)
  ∧ dirExists "/home/u/none" legacy_store = Returns 0%Z legacy_store.
Proof.
  destruct (file_io_failures "/home/u/.oidc-agent/none" "" legacy_store)
    as (Hnone & _).
  destruct (file_io_failures "/home/u/.oidc-agent/work" "" legacy_store)
    as (_ & _ & _ & Hread & _).
  destruct (file_io_failures "/home/u/none" "" legacy_store)
    as (_ & _ & _ & _ & _ & _ & _ & Hdir).
  split; [exact (Hnone ENOENT eq_refl)|].
  split; [|exact (Hdir eq_refl)].
  refine (Hread _ _ eq_refl _ _); [discriminate | vm_compute; lia].
Defined.

(** C5, as stated, fails: [writeFile] on a path whose directory does
    not exist, and [readFile] of a file larger than the memory left,
    end the process and return nothing to their caller. *)
Lemma file_io_terminates_the_process :
  writeFile "/home/u/nodir/x" "text" fresh_home = Exits EXIT_FAILURE
  ∧ readFile "/home/u/.oidc-agent/work" (set_mem 3 legacy_store)
    = Exits EXIT_FAILURE
  ∧ ¬ never_terminates_the_process.
Proof.
  split; [reflexivity|]. split; [reflexivity|].
  intros (_ & Hw & _).
  by destruct (Hw "/home/u/nodir/x" "text" fresh_home) as (a & w' & ?).
Qed.

End FileIoFacts.

(** ** src/utils/file_io/promptCryptFileUtils.c: the password *)
Section PromptCryptFacts.
Import CStr Machine PromptCrypt Samples.

Lemma live_secFree (p : loc) (w : world) : live p (secFree (Some p) w) = false.
Proof. unfold live, secFree. simpl. by rewrite lookup_delete_eq. Qed.

(** C3: when the prompt for the encryption password is cancelled (the
    collaborator returns [NULL]), the two write operations return the
    error code the prompt left in [oidc_errno] and the state the prompt
    left: nothing is encrypted or written, whatever the encrypting
    collaborators would do, and the file system stays as the prompt
    left it. *)
Theorem cancelled_prompt_writes_nothing (C : collaborators)
    (text target hint : string) (suggestedPassword pw_cmd : option string)
    (w w1 : world) :
  getEncryptionPasswordFor C (Some hint) suggestedPassword pw_cmd w
  = (None, w1) →
  promptEncryptAndWriteToFile C (Some text) (Some target) (Some hint)
    suggestedPassword pw_cmd w = (w_oidc_errno w1, w1)
  ∧ promptEncryptAndWriteToOidcFile C (Some text) (Some target) (Some hint)
      suggestedPassword pw_cmd w = (w_oidc_errno w1, w1)
  ∧ (∀ C' : collaborators,
        getEncryptionPasswordFor C' = getEncryptionPasswordFor C →
        promptEncryptAndWriteToFile C' (Some text) (Some target) (Some hint)
          suggestedPassword pw_cmd w = (w_oidc_errno w1, w1)
        ∧ promptEncryptAndWriteToOidcFile C' (Some text) (Some target)
            (Some hint) suggestedPassword pw_cmd w = (w_oidc_errno w1, w1))
  ∧ (w_root w1 = w_root w →
     w_root (snd (promptEncryptAndWriteToFile C (Some text) (Some target)
                    (Some hint) suggestedPassword pw_cmd w)) = w_root w
     ∧ w_root (snd (promptEncryptAndWriteToOidcFile C (Some text)
                      (Some target) (Some hint) suggestedPassword pw_cmd w))
       = w_root w).
Proof.
  intros Hprompt.
  assert (∀ C' : collaborators,
             getEncryptionPasswordFor C' = getEncryptionPasswordFor C →
             promptEncryptAndWriteToFile C' (Some text) (Some target)
               (Some hint) suggestedPassword pw_cmd w = (w_oidc_errno w1, w1)
             ∧ promptEncryptAndWriteToOidcFile C' (Some text) (Some target)
                 (Some hint) suggestedPassword pw_cmd w
               = (w_oidc_errno w1, w1)) as Hany.
  { intros C' HC'.
    unfold promptEncryptAndWriteToFile, promptEncryptAndWriteToOidcFile,
      _promptAndCryptAndWriteToAnyFile. simpl.
    by rewrite HC', Hprompt. }
  destruct (Hany C eq_refl) as [Hfile Hoidc].
  repeat split; try done; try apply Hany; try done.
  - intros. by rewrite Hfile.
  - intros. by rewrite Hoidc.
Qed.

Lemma cancelled_prompt_writes_nothing_witness :
  promptEncryptAndWriteToFile cancelling_user (Some "secret")
    (Some "/home/u/accounts") (Some "the account") None None fresh_home
  = (cancelled, set_oidc_errno cancelled fresh_home)
  ∧ file_content "/home/u/accounts"
      (snd (promptEncryptAndWriteToFile cancelling_user (Some "secret")
              (Some "/home/u/accounts") (Some "the account") None None
              fresh_home)) = None
  ∧ file_content "/home/u/accounts"
      (snd (promptEncryptAndWriteToFile typing_user (Some "secret")
              (Some "/home/u/accounts") (Some "the account") None None
              fresh_home)) = Some "terces".
Proof.
  destruct (cancelled_prompt_writes_nothing cancelling_user "secret"
              "/home/u/accounts" "the account" None None fresh_home
              (set_oidc_errno cancelled fresh_home) eq_refl) as (H & _).
  split; [exact H|]. rewrite H. split; reflexivity.
Defined.

(** C4: whenever the prompt has handed out a password buffer, the two
    write operations return what the encrypting collaborator returned,
    success or failure, after [secFree] of the buffer: the buffer is
    not live in the state they leave.  The two decryption operations
    that return the text alone do the same, on every call, with the
    password the decrypting collaborator handed out. *)
Theorem password_erased_before_return (C : collaborators)
    (text target hint : string) (suggestedPassword pw_cmd : option string)
    (w : world) :
  (∀ p w1 ret w2,
      getEncryptionPasswordFor C (Some hint) suggestedPassword pw_cmd w
      = (Some p, w1) →
      encryptAndWriteToFile C (Some text) (Some p) (Some target) w1 = (ret, w2) →
      promptEncryptAndWriteToFile C (Some text) (Some target) (Some hint)
        suggestedPassword pw_cmd w = (ret, secFree (Some p) w2)
      ∧ live p (snd (promptEncryptAndWriteToFile C (Some text) (Some target)
                       (Some hint) suggestedPassword pw_cmd w)) = false)
  ∧ (∀ p w1 ret w2,
        getEncryptionPasswordFor C (Some hint) suggestedPassword pw_cmd w
        = (Some p, w1) →
        encryptAndWriteToOidcFile C (Some text) (Some p) (Some target) w1
        = (ret, w2) →
        promptEncryptAndWriteToOidcFile C (Some text) (Some target) (Some hint)
          suggestedPassword pw_cmd w = (ret, secFree (Some p) w2)
        ∧ live p (snd (promptEncryptAndWriteToOidcFile C (Some text)
                         (Some target) (Some hint) suggestedPassword pw_cmd w))
          = false)
  ∧ (∀ res w2,
        _getDecryptedTextAndPasswordWithPromptFor C (Some target) (Some target)
          decryptFile 0 pw_cmd w = (res, w2) →
        getDecryptedFileFor C (Some target) pw_cmd w
        = (result res, secFree (password res) w2)
        ∧ ∀ q, password res = Some q →
               live q (snd (getDecryptedFileFor C (Some target) pw_cmd w))
               = false)
  ∧ (∀ res w2,
        _getDecryptedTextAndPasswordWithPromptFor C (Some target) (Some target)
          decryptOidcFile 1 pw_cmd w = (res, w2) →
        getDecryptedOidcFileFor C (Some target) pw_cmd w
        = (result res, secFree (password res) w2)
        ∧ ∀ q, password res = Some q →
               live q (snd (getDecryptedOidcFileFor C (Some target) pw_cmd w))
               = false).
Proof.
  unfold promptEncryptAndWriteToFile, promptEncryptAndWriteToOidcFile,
    _promptAndCryptAndWriteToAnyFile, getDecryptedFileFor,
    getDecryptedOidcFileFor, getDecryptedFileAndPasswordFor,
    getDecryptedOidcFileAndPasswordFor.
  simpl.
  split; [|split; [|split]].
  - intros p w1 ret w2 Hprompt H. rewrite Hprompt. simpl. rewrite H.
    split; [done|apply live_secFree].
  - intros p w1 ret w2 Hprompt H. rewrite Hprompt. simpl. rewrite H.
    split; [done|apply live_secFree].
  - intros res w2 H. rewrite H. split; [done|].
    intros q Hq. simpl. rewrite Hq. apply live_secFree.
  - intros res w2 H. rewrite H. split; [done|].
    intros q Hq. simpl. rewrite Hq. apply live_secFree.
Qed.

Lemma password_erased_before_return_witness :
  live 0 (snd (getEncryptionPasswordFor typing_user (Some "the account")
                 None None fresh_home)) = true
  ∧ fst (promptEncryptAndWriteToFile typing_user (Some "secret")
           (Some "/home/u/nodir/accounts") (Some "the account") None None
           fresh_home) = OIDC_EERROR
  ∧ live 0 (snd (promptEncryptAndWriteToFile typing_user (Some "secret")
                   (Some "/home/u/nodir/accounts") (Some "the account")
                   None None fresh_home)) = false
  ∧ fst (promptEncryptAndWriteToFile typing_user (Some "secret")
           (Some "/home/u/accounts") (Some "the account") None None
           fresh_home) = OIDC_SUCCESS
  ∧ live 0 (snd (promptEncryptAndWriteToFile typing_user (Some "secret")
                   (Some "/home/u/accounts") (Some "the account")
                   None None fresh_home)) = false
  ∧ live 1 (snd (_getDecryptedTextAndPasswordWithPromptFor cancelling_user
                   (Some "/home/u/accounts") (Some "/home/u/accounts")
                   decryptFile 0 None fresh_home)) = true
  ∧ getDecryptedFileFor cancelling_user (Some "/home/u/accounts") None
      fresh_home = (Some "plain", fresh_home)
  ∧ live 1 (snd (getDecryptedFileFor cancelling_user (Some "/home/u/accounts")
                   None fresh_home)) = false
  ∧ live 1 (snd (getDecryptedOidcFileFor cancelling_user (Some "accounts")
                   None legacy_store)) = false.
Proof.
  split; [reflexivity|].
  destruct (password_erased_before_return typing_user "secret"
              "/home/u/nodir/accounts" "the account" None None fresh_home)
    as (Hfail & _).
  destruct (password_erased_before_return typing_user "secret"
              "/home/u/accounts" "the account" None None fresh_home)
    as (Hok & _).
  destruct (password_erased_before_return cancelling_user "secret"
              "/home/u/accounts" "the account" None None fresh_home)
    as (_ & _ & Hdec & _).
  destruct (password_erased_before_return cancelling_user "secret"
              "accounts" "the account" None None legacy_store)
    as (_ & _ & _ & Hoidc).
  destruct (Hfail 0 _ _ _ eq_refl eq_refl) as [Hf1 Hf2].
  destruct (Hok 0 _ _ _ eq_refl eq_refl) as [Ho1 Ho2].
  destruct (Hdec _ _ eq_refl) as [Hd1 Hd2].
  destruct (Hoidc _ _ eq_refl) as [_ Ho].
  split; [by rewrite Hf1|]. split; [exact Hf2|].
  split; [by rewrite Ho1|]. split; [exact Ho2|].
  split; [reflexivity|]. split; [rewrite Hd1; reflexivity|].
  split; [exact (Hd2 1 eq_refl)|exact (Ho 1 eq_refl)].
Defined.

End PromptCryptFacts.

(** ** Creating the configuration directory *)
Section CreateFacts.
Import CStr Machine OidcFileIo Samples.

Lemma assoc_set_eq (name : string) (n : node) (es : list (string * node)) :
  assoc name (assoc_set name n es) = Some n.
Proof.
  induction es as [|[x m] es IH]; simpl.
  - by rewrite String.eqb_refl.
  - destruct (String.eqb x name) eqn:E; simpl; by rewrite E.
Qed.

Lemma assoc_app_new (name : string) (n : node) (es : list (string * node)) :
  assoc name es = None → assoc name (es ++ [(name, n)])%list = Some n.
Proof.
  induction es as [|[x m] es IH]; simpl.
  - by rewrite String.eqb_refl.
  - by destruct (String.eqb x name).
Qed.

Lemma walk_app (k1 k2 : list string) (n : node) :
  walk (k1 ++ k2)%list n
  = match walk k1 n with
    | Ok n' => walk k2 n'
    | Err e => Err e
    end.
Proof.
  revert n; induction k1 as [|c k1 IH]; intros n; simpl; [done|].
  destruct n as [|st es]; [done|]. by destruct (assoc c es).
Qed.

(** [update_dir] succeeds exactly on a directory whose entries the
    function accepts, and changes the entries of that directory. *)
Lemma update_dir_ok (k : list string) f (n : node) st es es' :
  walk k n = Ok (Dir st es) → f es = Ok es' →
  ∃ n', update_dir k f n = Ok n' ∧ walk k n' = Ok (Dir st es').
Proof.
  revert n; induction k as [|c k IH]; intros n Hwalk Hf; simpl in *.
  - injection Hwalk as ->. rewrite Hf. by eexists.
  - destruct n as [|st0 es0]; [done|].
    destruct (assoc c es0) as [child|] eqn:Hc; [|done].
    destruct (IH child Hwalk Hf) as (child' & -> & Hw').
    eexists. split; [done|]. simpl. by rewrite assoc_set_eq.
Qed.

Lemma update_dir_inv (k : list string) f (n n' : node) :
  update_dir k f n = Ok n' →
  ∃ st es es', walk k n = Ok (Dir st es) ∧ f es = Ok es'
               ∧ walk k n' = Ok (Dir st es').
Proof.
  revert n n'; induction k as [|c k IH]; intros n n'; simpl.
  - destruct n as [|st es]; [done|].
    destruct (f es) as [es'|] eqn:Hf; [|done]. intros [= <-].
    by exists st, es, es'.
  - destruct n as [|st0 es0]; [done|].
    destruct (assoc c es0) as [child|] eqn:Hc; [|done].
    destruct (update_dir k f child) as [child'|] eqn:Hu; [|done].
    intros [= <-]. destruct (IH _ _ Hu) as (st & es & es' & Hw & Hf & Hw').
    exists st, es, es'. simpl. by rewrite assoc_set_eq.
Qed.

(** A slash ends the component being read. *)
Lemma split_path_slash (a b cur : string) :
  split_path (a +:+ String "/" b) cur
  = (split_path a cur ++ split_path b "")%list.
Proof.
  revert cur; induction a as [|c a IH]; intros cur; simpl.
  - done.
  - destruct (Ascii.eqb c "/"); [|done]. by rewrite IH, app_assoc.
Qed.

Lemma components_slash (a b : string) :
  components (a +:+ String "/" b) = (components a ++ components b)%list.
Proof. apply split_path_slash. Qed.

Lemma parent_and_name_snoc (k : list string) (name : string) :
  parent_and_name (k ++ [name]) = Some (k, name).
Proof.
  unfold parent_and_name. by rewrite reverse_snoc, reverse_involutive.
Qed.

Lemma app_slash_nonempty (a b : string) :
  String.eqb (a +:+ String "/" b) "" = false.
Proof. by destruct a. Qed.

(** Creating or emptying [name] in the directory [dir]. *)
Lemma open_creat_trunc_in_directory (dir name : string) (w : world) st es :
  components name = [name] →
  walk (components dir) (w_root w) = Ok (Dir st es) →
  (∀ st' es', assoc name es ≠ Some (Dir st' es')) →
  ∃ w' st' es' st'',
    open_creat_trunc (dir +:+ "/" +:+ name) w = Ok w'
    ∧ walk (components dir) (w_root w') = Ok (Dir st' es')
    ∧ walk (components dir ++ [name]) (w_root w') = Ok (File st'' "").
Proof.
  intros Hname Hdir Hfree. unfold open_creat_trunc.
  change (dir +:+ "/" +:+ name) with (dir +:+ String "/" name).
  rewrite app_slash_nonempty, components_slash, Hname, parent_and_name_snoc.
  set (f := fun es => match assoc name es with
                      | Some (Dir _ _) => _ | Some (File st0 _) => _
                      | None => _ end).
  assert (∃ es' st'', f es = Ok es' ∧ assoc name es' = Some (File st'' ""))
    as (es' & st'' & Hf & Hes').
  { subst f. simpl. destruct (assoc name es) as [[st0 c|st0 es0]|] eqn:Ha.
    - eexists _, _. split; [done|]. apply assoc_set_eq.
    - by destruct (Hfree st0 es0).
    - eexists _, _. split; [done|]. by apply assoc_app_new. }
  destruct (update_dir_ok _ f _ _ _ _ Hdir Hf) as (r & -> & Hr).
  exists (set_root r w), st, es', st''. simpl.
  split; [done|]. split; [done|].
  rewrite walk_app, Hr. simpl. by rewrite Hes'.
Qed.

(** [createDir] followed by the [open] of the marker, for a target
    whose last component is [name]. *)
Lemma createDir_then_marker (target marker : string) (w : world)
    (parent : list string) (name : string) :
  String.eqb target "" = false →
  components target = (parent ++ [name])%list →
  components marker = [marker] →
  let r := createDir (Some target) w in
  let w2 := match open_creat_trunc (target +:+ "/" +:+ marker) (snd r) with
            | Ok w' => w'
            | Err _ => snd r
            end in
  (fst r = OIDC_SUCCESS →
   is_directory target w = false ∧ is_directory target w2 = true
   ∧ file_content (target +:+ "/" +:+ marker) w2 = Some "")
  ∧ (∀ content, file_content (target +:+ "/" +:+ marker) w = Some content →
                file_content (target +:+ "/" +:+ marker) w2 = Some "").
Proof.
  intros Hne Htarget Hmarker r w2.
  assert (∀ w0, is_directory target w0
                = match walk (components target) (w_root w0) with
                  | Ok (Dir _ _) => true | _ => false end) as Hisdir.
  { intros w0. unfold is_directory, resolve. by rewrite Hne. }
  assert (∀ w0, file_content (target +:+ "/" +:+ marker) w0
                = match walk (components target ++ [marker]) (w_root w0) with
                  | Ok (File _ c) => Some c | _ => None end) as Hcontent.
  { intros w0. unfold file_content, resolve.
    change (target +:+ "/" +:+ marker) with (target +:+ String "/" marker).
    by rewrite app_slash_nonempty, components_slash, Hmarker. }
  assert (∀ w1 st es,
             walk (components target) (w_root w1) = Ok (Dir st es) →
             (∀ st' es', assoc marker es ≠ Some (Dir st' es')) →
             ∀ w2', w2' = match open_creat_trunc (target +:+ "/" +:+ marker) w1 with
                          | Ok w' => w' | Err _ => w1 end →
             is_directory target w2' = true
             ∧ file_content (target +:+ "/" +:+ marker) w2' = Some "") as Hopen.
  { intros w1 st es Hw Hfree w2' ->.
    destruct (open_creat_trunc_in_directory target marker w1 st es Hmarker Hw Hfree)
      as (w' & st' & es' & st'' & -> & Hd & Hf).
    by rewrite Hisdir, Hcontent, Hd, Hf. }
  subst r w2. unfold createDir, mkdir.
  rewrite Hne, Htarget, parent_and_name_snoc.
  destruct (update_dir parent _ (w_root w)) as [r1|e] eqn:Hup; cbn [fst snd].
  - apply update_dir_inv in Hup as (st & es & es' & Hw & Hf & Hw').
    destruct (assoc name es) eqn:Ha; [done|]. injection Hf as <-.
    assert (walk (components target) (w_root w) = Err ENOENT) as Hbefore.
    { by rewrite Htarget, walk_app, Hw; simpl; rewrite Ha. }
    split.
    + intros _. split; [by rewrite Hisdir, Hbefore|].
      assert (walk (components target) (w_root (set_root r1 w))
              = Ok (Dir {| st_mtime := w_clock w; st_atime := w_clock w |} []))
        as Hnew.
      { rewrite Htarget, walk_app. simpl. rewrite Hw'. simpl.
        by rewrite (assoc_app_new _ _ _ Ha). }
      by apply (Hopen _ _ _ Hnew).
    + intros content. by rewrite Hcontent, walk_app, Hbefore.
  - split; [done|]. intros content. rewrite (Hcontent w), walk_app.
    destruct (walk (components target) (w_root w)) as [[|st es]|] eqn:Hw;
      try done.
    simpl. destruct (assoc marker es) as [[st0 c|]|] eqn:Ha; try done.
    intros _.
    apply (Hopen (set_oidc_errno OIDC_EERROR (set_oidc_error e w)) st es Hw);
      [|done].
    intros st' es'. by rewrite Ha.
Qed.

(** C7: [createOidcDir] takes "~/.config/oidc-agent/" as its target
    when "~/.config" is a directory and "~/.oidc-agent/" otherwise,
    returns what [createDir] on that target returns, and opens the
    marker file in it for writing with truncation: when it returns
    [OIDC_SUCCESS] the target, which was not there before, is a
    directory and the marker in it is an empty file; a marker that was
    there with some content is empty afterwards. *)
Theorem createOidcDir_creates_marker (ISSUER_CONFIG_FILENAME home : string)
    (w : world) :
  w_home w = Some home →
  components ISSUER_CONFIG_FILENAME = [ISSUER_CONFIG_FILENAME] →
  let target :=
    if is_directory (home +:+ "/.config") w
    then home +:+ "/.config/oidc-agent/"
    else home +:+ "/.oidc-agent/" in
  let marker := target +:+ "/" +:+ ISSUER_CONFIG_FILENAME in
  ∃ w',
    createOidcDir ISSUER_CONFIG_FILENAME w
    = Returns (fst (createDir (Some target) w)) w'
    ∧ (fst (createDir (Some target) w) = OIDC_SUCCESS →
       is_directory target w = false ∧ is_directory target w' = true
       ∧ file_content marker w' = Some "")
    ∧ (∀ content, file_content marker w = Some content →
                  file_content marker w' = Some "").
Proof.
  intros Hhome Hmarker target marker.
  assert (String.eqb target "" = false
          ∧ ∃ parent name, components target = (parent ++ [name])%list)
    as (Hne & parent & name & Htarget).
  { subst target. destruct (is_directory _ w).
    - split; [apply app_slash_nonempty|].
      exists (components home ++ [".config"])%list, "oidc-agent".
      change "/.config/oidc-agent/" with (String "/" ".config/oidc-agent/").
      by rewrite components_slash, <- app_assoc.
    - split; [apply app_slash_nonempty|].
      exists (components home), ".oidc-agent".
      change "/.oidc-agent/" with (String "/" ".oidc-agent/").
      by rewrite components_slash. }
  pose proof (createDir_then_marker target ISSUER_CONFIG_FILENAME w parent name
                Hne Htarget Hmarker) as Hcreate.
  cbv zeta in Hcreate. fold marker in Hcreate.
  assert (createOidcDir ISSUER_CONFIG_FILENAME w
          = Returns (fst (createDir (Some target) w))
              match open_creat_trunc marker (snd (createDir (Some target) w)) with
              | Ok w' => w'
              | Err _ => snd (createDir (Some target) w)
              end) as ->.
  { unfold createOidcDir. rewrite Hhome.
    change (oidc_strcat (Some home) (Some "/.config"))
      with (Some (home +:+ "/.config")).
    rewrite dirExists_pos. subst marker target.
    destruct (is_directory (home +:+ "/.config") w);
      cbn [nth possibleLocations advance oidc_strcat];
      by destruct (createDir _ w). }
  eexists. split; [done|]. exact Hcreate.
Qed.

Lemma createOidcDir_creates_marker_witness :
  (∃ w', createOidcDir "issuer.config" fresh_home = Returns OIDC_SUCCESS w'
         ∧ is_directory "/home/u/.oidc-agent/" w' = true
         ∧ file_content "/home/u/.oidc-agent//issuer.config" w' = Some "")
  ∧ (∃ w', createOidcDir "issuer.config" home_with_config
           = Returns OIDC_SUCCESS w'
           ∧ is_directory "/home/u/.config/oidc-agent/" w' = true
           ∧ file_content "/home/u/.config/oidc-agent//issuer.config" w'
             = Some "").
Proof.
  split.
  - destruct (createOidcDir_creates_marker "issuer.config" "/home/u" fresh_home
                eq_refl eq_refl) as (w' & Hret & Hok & _).
    destruct (Hok eq_refl) as (_ & Hd & Hf).
    exists w'. split; [exact Hret|]. split; [exact Hd|exact Hf].
  - destruct (createOidcDir_creates_marker "issuer.config" "/home/u"
                home_with_config eq_refl eq_refl) as (w' & Hret & Hok & _).
    destruct (Hok eq_refl) as (_ & Hd & Hf).
    exists w'. split; [exact Hret|]. split; [exact Hd|exact Hf].
Defined.

End CreateFacts.


(** ** What a change of one directory entry leaves alone *)
Section FrameFacts.
Import CStr Machine.

Lemma assoc_set_ne (c name : string) (n : node) (es : list (string * node)) :
  c ≠ name → assoc c (assoc_set name n es) = assoc c es.
Proof.
  intros Hne. induction es as [|[x m] es IH]; simpl.
  - destruct (String.eqb_spec name c); [congruence|done].
  - destruct (String.eqb_spec x name) as [->|Hx]; simpl.
    + by destruct (String.eqb_spec name c); [congruence|].
    + by rewrite IH.
Qed.

Lemma assoc_app_ne (c name : string) (n : node) (es : list (string * node)) :
  c ≠ name → assoc c (es ++ [(name, n)])%list = assoc c es.
Proof.
  intros Hne. induction es as [|[x m] es IH]; simpl.
  - destruct (String.eqb_spec name c); [congruence|done].
  - by rewrite IH.
Qed.

Lemma assoc_remove_eq (name : string) (es : list (string * node)) :
  assoc name (assoc_remove name es) = None.
Proof.
  induction es as [|[x m] es IH]; simpl; [done|].
  destruct (String.eqb x name) eqn:E; simpl; [done|]. by rewrite E.
Qed.

Lemma assoc_remove_ne (c name : string) (es : list (string * node)) :
  c ≠ name → assoc c (assoc_remove name es) = assoc c es.
Proof.
  intros Hne. induction es as [|[x m] es IH]; simpl; [done|].
  destruct (String.eqb_spec x name) as [->|Hx]; simpl.
  - rewrite IH. by destruct (String.eqb_spec name c); [congruence|].
  - by rewrite IH.
Qed.

Lemma parent_and_name_Some (k parent : list string) (name : string) :
  parent_and_name k = Some (parent, name) → k = (parent ++ [name])%list.
Proof.
  unfold parent_and_name. destruct (reverse k) as [|x r] eqn:Hr; [done|].
  intros [= <- <-]. apply (f_equal reverse) in Hr.
  by rewrite reverse_involutive, reverse_cons in Hr.
Qed.

Lemma look_node_cons (c : string) (q : list string) st es :
  look_node (c :: q) (Dir st es) = look_entry q (assoc c es).
Proof. unfold look_node. simpl. by destruct (assoc c es). Qed.

Lemma look_node_below_file (q : list string) st content :
  q ≠ [] → look_node q (File st content) = Absent.
Proof. by destruct q. Qed.

Lemma look_node_below_empty (q : list string) st :
  q ≠ [] → look_node q (Dir st []) = Absent.
Proof. by destruct q. Qed.

Lemma touches_only_intro (name : string) f :
  (∀ es es', f es = Ok es' →
     (∀ c, c ≠ name → assoc c es' = assoc c es)
     ∧ (∀ q, q ≠ [] →
          look_entry q (assoc name es') = look_entry q (assoc name es))) →
  touches_only name f.
Proof.
  intros H es es' st Hf q Hq. destruct (H _ _ Hf) as [Hother Hbelow].
  destruct q as [|c q]; [done|]. rewrite !look_node_cons.
  destruct (String.eqb_spec c name) as [->|Hc].
  - apply Hbelow. congruence.
  - by rewrite (Hother c Hc).
Qed.

(** The frame of [update_dir]. *)
Lemma update_dir_frame (k : list string) f (n n' : node) (name : string) :
  touches_only name f →
  update_dir k f n = Ok n' →
  ∀ q, q ≠ (k ++ [name])%list → look_node q n' = look_node q n.
Proof.
  intros Hf. revert n n'; induction k as [|c0 k IH]; intros n n'; simpl.
  - destruct n as [|st es]; [done|].
    destruct (f es) as [es'|] eqn:Hfes; [|done]. intros [= <-] q Hq.
    by apply Hf.
  - destruct n as [|st es]; [done|].
    destruct (assoc c0 es) as [child|] eqn:Hc0; [|done].
    destruct (update_dir k f child) as [child'|] eqn:Hu; [|done].
    intros [= <-] q Hq. destruct q as [|c q]; [done|].
    rewrite !look_node_cons.
    destruct (String.eqb_spec c c0) as [->|Hc].
    + rewrite assoc_set_eq, Hc0. simpl.
      apply (IH _ _ Hu q). congruence.
    + by rewrite (assoc_set_ne c c0 child' es Hc).
Qed.

(** The changes the system calls make. *)
Lemma touches_only_open (name : string) (now : stat_t) (clock : Z) :
  touches_only name
    (fun es => match assoc name es with
               | Some (Dir _ _) => Err EISDIR
               | Some (File st _) =>
                   Ok (assoc_set name
                         (File {| st_mtime := clock; st_atime := st_atime st |} "")
                         es)
               | None => Ok (es ++ [(name, File now "")])%list
               end).
Proof.
  apply touches_only_intro. intros es es'.
  destruct (assoc name es) as [[st0 c0|]|] eqn:Ha; [| done |];
    intros [= <-]; split.
  - intros c Hc. by apply assoc_set_ne.
  - intros q Hq. rewrite assoc_set_eq. simpl.
    by rewrite !look_node_below_file.
  - intros c Hc. by apply assoc_app_ne.
  - intros q Hq. rewrite (assoc_app_new _ _ _ Ha). simpl.
    by rewrite look_node_below_file.
Qed.

Lemma touches_only_put (name text : string) :
  touches_only name
    (fun es => match assoc name es with
               | Some (File st _) => Ok (assoc_set name (File st text) es)
               | _ => Ok es
               end).
Proof.
  apply touches_only_intro. intros es es'.
  destruct (assoc name es) as [[st0 c0|st0 es0]|] eqn:Ha;
    intros [= <-]; split; try done; try (by rewrite Ha).
  - intros c Hc. by apply assoc_set_ne.
  - intros q Hq. rewrite assoc_set_eq. simpl.
    by rewrite !look_node_below_file.
Qed.

Lemma touches_only_mkdir (name : string) (now : stat_t) :
  touches_only name
    (fun es => match assoc name es with
               | Some _ => Err EEXIST
               | None => Ok (es ++ [(name, Dir now [])])%list
               end).
Proof.
  apply touches_only_intro. intros es es'.
  destruct (assoc name es) eqn:Ha; [done|]. intros [= <-]; split.
  - intros c Hc. by apply assoc_app_ne.
  - intros q Hq. rewrite (assoc_app_new _ _ _ Ha). simpl.
    by rewrite look_node_below_empty.
Qed.

Lemma touches_only_unlink (name : string) :
  touches_only name
    (fun es => match assoc name es with
               | Some (File _ _) => Ok (assoc_remove name es)
               | Some (Dir _ _) => Err EISDIR
               | None => Err ENOENT
               end).
Proof.
  apply touches_only_intro. intros es es'.
  destruct (assoc name es) as [[st0 c0|]|] eqn:Ha; try done.
  intros [= <-]; split.
  - intros c Hc. by apply assoc_remove_ne.
  - intros q Hq. rewrite assoc_remove_eq. simpl.
    by rewrite look_node_below_file.
Qed.

(** Looking at a path of a state is looking at its components from the
    root. *)
Lemma look_components (path : string) (w : world) :
  look path w
  = if String.eqb path "" then Absent
    else look_node (components path) (w_root w).
Proof. unfold look, look_node, resolve. by destruct (String.eqb path ""). Qed.

Lemma is_directory_look (path : string) (w : world) :
  is_directory path w = true ↔ look path w = IsDir.
Proof.
  unfold is_directory, look. by destruct (resolve (Some path) w) as [[]|].
Qed.

Lemma file_content_look (path content : string) (w : world) :
  file_content path w = Some content ↔ look path w = IsFile content.
Proof.
  unfold file_content, look.
  destruct (resolve (Some path) w) as [[]|]; split; congruence.
Qed.

End FrameFacts.

(** ** src/file_io.c: writing, reading and removing files *)
Section PlainFileFacts.
Import CStr Machine FileIo Samples.

(** What a system call that rewrites the entry [name] of the directory
    [parent] leaves of the other paths. *)
Lemma update_dir_look (path : string) (parent : list string) (name : string)
    f (w : world) (r : node) :
  components path = (parent ++ [name])%list →
  touches_only name f →
  update_dir parent f (w_root w) = Ok r →
  ∀ q, components q ≠ components path → look q (set_root r w) = look q w.
Proof.
  intros Hpath Hf Hup q Hq. rewrite !look_components.
  destruct (String.eqb q ""); [done|]. simpl.
  apply (update_dir_frame parent f _ _ name Hf Hup). congruence.
Qed.

Lemma open_creat_trunc_look (path : string) (w w1 : world) :
  open_creat_trunc path w = Ok w1 →
  ∃ parent name r,
    components path = (parent ++ [name])%list
    ∧ w1 = set_root r w
    ∧ String.eqb path "" = false
    ∧ (∃ st es st', walk parent r = Ok (Dir st es)
                    ∧ assoc name es = Some (File st' ""))
    ∧ ∀ q, components q ≠ components path → look q w1 = look q w.
Proof.
  unfold open_creat_trunc.
  destruct (String.eqb path "") eqn:Hne; [done|].
  destruct (parent_and_name (components path)) as [[parent name]|] eqn:Hpn;
    [|done].
  apply parent_and_name_Some in Hpn.
  destruct (update_dir parent _ (w_root w)) as [r|] eqn:Hup; [|done].
  intros [= <-]. exists parent, name, r.
  split; [done|]. split; [done|]. split; [done|]. split.
  - apply update_dir_inv in Hup as (st & es & es' & _ & Hf & Hw').
    exists st, es'.
    destruct (assoc name es) as [[st0 c0|]|] eqn:Ha; [| done |];
      injection Hf as <-; eexists; (split; [exact Hw'|]).
    + apply assoc_set_eq.
    + by apply assoc_app_new.
  - eapply update_dir_look; [exact Hpn| |exact Hup].
    apply touches_only_open.
Qed.

Lemma put_content_look (path text : string) (parent : list string)
    (name : string) (w : world) st es st' content :
  components path = (parent ++ [name])%list →
  String.eqb path "" = false →
  walk parent (w_root w) = Ok (Dir st es) →
  assoc name es = Some (File st' content) →
  resolve (Some path) (put_content path text w) = Ok (File st' text)
  ∧ (∃ r, put_content path text w = set_root r w)
  ∧ ∀ q, components q ≠ components path →
         look q (put_content path text w) = look q w.
Proof.
  intros Hpath Hne Hw Ha. unfold put_content.
  rewrite Hpath, parent_and_name_snoc.
  set (f := fun es => match assoc name es with
                      | Some (File st _) => _ | _ => _ end).
  assert (f es = Ok (assoc_set name (File st' text) es)) as Hf
    by (subst f; simpl; by rewrite Ha).
  destruct (update_dir_ok _ f _ _ _ _ Hw Hf) as (r & Hup & Hr).
  rewrite Hup. split; [|split].
  - unfold resolve. rewrite Hne, Hpath. simpl. rewrite walk_app, Hr. simpl.
    by rewrite assoc_set_eq.
  - by exists r.
  - intros q Hq.
    apply (update_dir_look path parent name f w r Hpath);
      [apply touches_only_put | exact Hup | by rewrite Hpath].
Qed.

(** What [writeFile] leaves when it returns. *)
Lemma writeFile_returns (path text : string) (w w' : world) :
  writeFile path text w = Returns tt w' →
  (∃ st, resolve (Some path) w' = Ok (File st text))
  ∧ (∃ r, w' = set_root r w)
  ∧ ∀ q, components q ≠ components path → look q w' = look q w.
Proof.
  unfold writeFile.
  destruct (open_creat_trunc path w) as [w1|] eqn:Hopen; [|done].
  intros [= <-].
  apply open_creat_trunc_look in Hopen
    as (parent & name & r & Hpath & -> & Hne & (st & es & st' & Hw & Ha) & Hframe).
  destruct (put_content_look path text parent name (set_root r w) st es st' ""
              Hpath Hne Hw Ha) as (Hres & [r' Hr'] & Hframe').
  split; [by exists st'|]. split.
  - exists r'. by rewrite Hr'.
  - intros q Hq. by rewrite Hframe', Hframe.
Qed.

(** X1: a text [writeFile] has written is the content of the file, and
    [fileDoesExist] finds the file; [readFile] returns the text when it
    is not empty and the memory left holds it, and ends the process
    when the text is empty (an empty file reads as zero items). *)
Theorem writeFile_then_readFile (path text : string) (w w' : world) :
  writeFile path text w = Returns tt w' →
  file_content path w' = Some text
  ∧ fileDoesExist path w' = 1%Z
  ∧ (text ≠ "" → strlen text + 1 <= w_mem w' →
     readFile path w'
     = Returns (Some text) (set_mem (w_mem w' - (strlen text + 1)) w'))
  ∧ (text = "" → readFile path w' = Exits EXIT_FAILURE).
Proof.
  intros Hwrite.
  destruct (writeFile_returns _ _ _ _ Hwrite) as ([st Hres] & _ & _).
  unfold file_content, fileDoesExist, access_F_OK, readFile, calloc.
  rewrite Hres. split; [done|]. split; [done|]. split.
  - intros Hne Hmem.
    destruct (Nat.ltb_spec (w_mem w') (strlen text + 1)); [lia|].
    by destruct text.
  - intros ->. simpl. by destruct (w_mem w' <? 1)%nat.
Qed.

Lemma writeFile_then_readFile_witness :
  (∃ w', writeFile "/home/u/.oidc-agent/work" "new" legacy_store = Returns tt w'
         ∧ readFile "/home/u/.oidc-agent/work" w'
           = Returns (Some "new") (set_mem (4096 - 4) w'))
  ∧ (∃ w', writeFile "/home/u/.oidc-agent/work" "" legacy_store = Returns tt w'
           ∧ readFile "/home/u/.oidc-agent/work" w' = Exits EXIT_FAILURE).
Proof.
  split.
  - eexists. split; [reflexivity|].
    refine (proj1 (proj2 (proj2 (writeFile_then_readFile
              "/home/u/.oidc-agent/work" "new" legacy_store _ eq_refl))) _ _);
      [discriminate | vm_compute; lia].
  - eexists. split; [reflexivity|].
    exact (proj2 (proj2 (proj2 (writeFile_then_readFile
              "/home/u/.oidc-agent/work" "" legacy_store _ eq_refl))) eq_refl).
Defined.

(** X2: [writeFile] changes the file it writes and nothing else: every
    path that names another place shows what it showed before (a
    directory, a file with the same content, or nothing), and the rest
    of the state is as it was. *)
Theorem writeFile_frame (path text : string) (w w' : world) :
  writeFile path text w = Returns tt w' →
  (∀ q, components q ≠ components path → look q w' = look q w)
  ∧ w_home w' = w_home w ∧ w_mem w' = w_mem w ∧ w_heap w' = w_heap w
  ∧ w_oidc_errno w' = w_oidc_errno w.
Proof.
  intros Hwrite.
  destruct (writeFile_returns _ _ _ _ Hwrite) as (_ & [r ->] & Hframe).
  by repeat split.
Qed.

Lemma writeFile_frame_witness :
  ∃ w', writeFile "/home/u/.oidc-agent/work" "new" legacy_store = Returns tt w'
        ∧ look "/home/u/.oidc-agent/work.clientconfig" w' = IsFile "cipher-b"
        ∧ look "/home/u/.oidc-agent" w' = IsDir.
Proof.
  eexists. split; [reflexivity|].
  destruct (writeFile_frame "/home/u/.oidc-agent/work" "new" legacy_store _
              eq_refl) as (Hframe & _).
  split.
  - rewrite (Hframe "/home/u/.oidc-agent/work.clientconfig"); [reflexivity|].
    vm_compute. discriminate.
  - rewrite (Hframe "/home/u/.oidc-agent"); [reflexivity|].
    vm_compute. discriminate.
Defined.

Lemma unlink_look (path : string) (w w1 : world) :
  unlink path w = Ok w1 →
  (∃ content, look path w = IsFile content)
  ∧ look path w1 = Absent
  ∧ (∃ r, w1 = set_root r w)
  ∧ ∀ q, components q ≠ components path → look q w1 = look q w.
Proof.
  unfold unlink.
  destruct (String.eqb path "") eqn:Hne; [done|].
  destruct (parent_and_name (components path)) as [[parent name]|] eqn:Hpn;
    [|done].
  apply parent_and_name_Some in Hpn.
  destruct (update_dir parent _ (w_root w)) as [r|] eqn:Hup; [|done].
  intros [= <-].
  assert (∀ q, components q ≠ components path →
               look q (set_root r w) = look q w) as Hframe.
  { eapply update_dir_look;
      [exact Hpn | apply touches_only_unlink | exact Hup]. }
  apply update_dir_inv in Hup as (st & es & es' & Hw & Hf & Hw').
  destruct (assoc name es) as [[st0 c0|]|] eqn:Ha; try done.
  injection Hf as <-.
  split; [|split; [|split; [by exists r|exact Hframe]]].
  - exists c0. rewrite look_components, Hne, Hpn. unfold look_node.
    rewrite walk_app, Hw. simpl. by rewrite Ha.
  - rewrite look_components, Hne, Hpn. unfold look_node.
    rewrite walk_app. simpl. rewrite Hw'. simpl.
    by rewrite assoc_remove_eq.
Qed.

(** X3: [removeFile] returns 0 or -1.  When it returns 0 the path named
    a regular file, names nothing afterwards ([fileDoesExist] is 0),
    and every other path shows what it showed; when it returns -1 the
    state is untouched. *)
Theorem removeFile_removes (path : string) (w : world) :
  (fst (removeFile path w) = 0%Z ∨ fst (removeFile path w) = (-1)%Z)
  ∧ (fst (removeFile path w) = 0%Z →
     (∃ content, look path w = IsFile content)
     ∧ look path (snd (removeFile path w)) = Absent
     ∧ fileDoesExist path (snd (removeFile path w)) = 0%Z
     ∧ ∀ q, components q ≠ components path →
            look q (snd (removeFile path w)) = look q w)
  ∧ (fst (removeFile path w) = (-1)%Z → snd (removeFile path w) = w).
Proof.
  unfold removeFile.
  destruct (unlink path w) as [w1|] eqn:Hun; simpl.
  - split; [by left|]. split; [|done]. intros _.
    apply unlink_look in Hun as (Hfile & Hgone & _ & Hframe).
    split; [done|]. split; [done|]. split; [|done].
    unfold fileDoesExist, access_F_OK. unfold look in Hgone.
    by destruct (resolve (Some path) w1) as [[]|].
  - split; [by right|]. split; done.
Qed.

Lemma removeFile_removes_witness :
  fst (removeFile "/home/u/.oidc-agent/work" legacy_store) = 0%Z
  ∧ look "/home/u/.oidc-agent/work" legacy_store = IsFile "cipher-a"
  ∧ look "/home/u/.oidc-agent/work"
      (snd (removeFile "/home/u/.oidc-agent/work" legacy_store)) = Absent
  ∧ look "/home/u/.oidc-agent/work.clientconfig"
      (snd (removeFile "/home/u/.oidc-agent/work" legacy_store))
    = IsFile "cipher-b"
  ∧ fst (removeFile "/home/u/.oidc-agent/none" legacy_store) = (-1)%Z
  ∧ snd (removeFile "/home/u/.oidc-agent/none" legacy_store) = legacy_store
  ∧ fst (removeFile "/home/u/.oidc-agent" legacy_store) = (-1)%Z.
Proof.
  destruct (removeFile_removes "/home/u/.oidc-agent/work" legacy_store)
    as (_ & Hzero & _).
  destruct (Hzero eq_refl) as (_ & Hgone & _ & Hframe).
  destruct (removeFile_removes "/home/u/.oidc-agent/none" legacy_store)
    as (_ & _ & Hminus).
  split; [reflexivity|]. split; [reflexivity|]. split; [exact Hgone|].
  split.
  - rewrite (Hframe "/home/u/.oidc-agent/work.clientconfig"); [reflexivity|].
    vm_compute. discriminate.
  - split; [reflexivity|]. split; [exact (Hminus eq_refl)|reflexivity].
Defined.

End PlainFileFacts.

(** ** src/file_io.c: the configuration directory *)
Section PlainDirFacts.
Import CStr Machine Samples.

Lemma set_mem_same (w : world) : set_mem (w_mem w) w = w.
Proof. by destruct w. Qed.

Lemma set_mem_set_mem (m m' : nat) (w : world) :
  set_mem m (set_mem m' w) = set_mem m w.
Proof. done. Qed.

Lemma calloc_Some (n : nat) (w w1 : world) :
  FileIo.calloc n w = Some w1 → n <= w_mem w ∧ w1 = set_mem (w_mem w - n) w.
Proof.
  unfold FileIo.calloc. destruct (Nat.ltb_spec (w_mem w) n); [done|].
  intros [= <-]. done.
Qed.

Lemma calloc_free (n : nat) (w w1 : world) :
  FileIo.calloc n w = Some w1 → FileIo.free n w1 = w.
Proof.
  intros [Hn ->]%calloc_Some. unfold FileIo.free. simpl.
  rewrite set_mem_set_mem.
  replace (w_mem w - n + n) with (w_mem w) by lia. apply set_mem_same.
Qed.

(** The two versions of [dirExists] agree where the earlier one
    returns. *)
Lemma dirExists_returns (path : string) (w w2 : world) (r : Z) :
  FileIo.dirExists path w = Returns r w2 →
  w2 = w ∧ r = OidcFileIo.dirExists (Some path) w.
Proof.
  unfold FileIo.dirExists, OidcFileIo.dirExists.
  destruct (opendir path w) as [|[]]; try done; by intros [= <- <-].
Qed.

Lemma dirExists_set_mem (path : option string) (m : nat) (w : world) :
  OidcFileIo.dirExists path (set_mem m w) = OidcFileIo.dirExists path w.
Proof. done. Qed.

Lemma getOidcDir_loop_agrees (home : string) (locations : list string)
    (w w' : world) (r : option string) :
  FileIo.getOidcDir_loop home locations w = Returns r w' →
  r = OidcFileIo.getOidcDir_loop (Some home) locations w
  ∧ w' = match r with
         | None => w
         | Some path => set_mem (w_mem w - (strlen path + 1)) w
         end.
Proof.
  revert w; induction locations as [|location rest IH]; intros w;
    cbn [FileIo.getOidcDir_loop OidcFileIo.getOidcDir_loop oidc_strcat].
  - by intros [= <- <-].
  - destruct (FileIo.calloc _ w) as [w1|] eqn:Hc; [|done].
    pose proof (calloc_free _ _ _ Hc) as Hfree.
    apply calloc_Some in Hc as [Hsize Hw1].
    destruct (FileIo.dirExists _ w1) as [d w2| |] eqn:Hd; try done.
    apply dirExists_returns in Hd as [-> ->].
    rewrite Hfree.
    replace (OidcFileIo.dirExists (Some (home +:+ advance 1 location)) w1)
      with (OidcFileIo.dirExists (Some (home +:+ advance 1 location)) w)
      by (by rewrite Hw1).
    destruct (OidcFileIo.dirExists _ w >? 0)%Z.
    + intros [= <- <-]. split; [done|].
      rewrite Hw1, strlen_app. done.
    + apply IH.
Qed.

(** A location that does not exist is passed over. *)
Lemma getOidcDir_loop_absent (home location : string) (rest : list string)
    (w : world) :
  strlen home + strlen (advance 1 location) + 1 <= w_mem w →
  resolve (Some (home +:+ advance 1 location)) w = Err ENOENT →
  FileIo.getOidcDir_loop home (location :: rest) w
  = FileIo.getOidcDir_loop home rest w.
Proof.
  intros Hmem Habsent. cbn [FileIo.getOidcDir_loop].
  destruct (FileIo.calloc _ w) as [w1|] eqn:Hc.
  - pose proof (calloc_free _ _ _ Hc) as Hfree.
    apply calloc_Some in Hc as [_ Hw1].
    unfold FileIo.dirExists, opendir.
    replace (resolve (Some (home +:+ advance 1 location)) w1)
      with (resolve (Some (home +:+ advance 1 location)) w)
      by (by rewrite Hw1).
    rewrite Habsent. cbn [Z.gtb Z.compare]. by rewrite Hfree.
  - unfold FileIo.calloc in Hc.
    by destruct (Nat.ltb_spec (w_mem w)
                   (strlen home + strlen (advance 1 location) + 1)); [lia|].
Qed.

Lemma getOidcDir_loop_agrees' (w w' : world) (r : option string) :
  FileIo.getOidcDir w = Returns r w' →
  r = OidcFileIo.getOidcDir w
  ∧ w' = match r with
         | None => w
         | Some path => set_mem (w_mem w - (strlen path + 1)) w
         end.
Proof.
  unfold FileIo.getOidcDir, OidcFileIo.getOidcDir.
  destruct (w_home w) as [home|]; [|done].
  apply getOidcDir_loop_agrees.
Qed.

(** X4: where [getOidcDir] of src/file_io.c returns, it returns what
    [getOidcDir] of oidc_file_io.c returns in the same state; the file
    system is as before, and of the memory only the buffer of the path
    it returns ("has to be freed after usage") is still taken. *)
Theorem getOidcDir_versions_agree (w w' : world) (r : option string) :
  FileIo.getOidcDir w = Returns r w' →
  r = OidcFileIo.getOidcDir w
  ∧ w' = match r with
         | None => w
         | Some path => set_mem (w_mem w - (strlen path + 1)) w
         end.
Proof.
  unfold FileIo.getOidcDir, OidcFileIo.getOidcDir.
  destruct (w_home w) as [home|]; [|done].
  apply getOidcDir_loop_agrees.
Qed.

Lemma getOidcDir_versions_agree_witness :
  FileIo.getOidcDir legacy_store
  = Returns (Some "/home/u/.oidc-agent/") (set_mem (4096 - 21) legacy_store)
  ∧ OidcFileIo.getOidcDir legacy_store = Some "/home/u/.oidc-agent/".
Proof.
  split; [reflexivity|].
  symmetry.
  exact (proj1 (getOidcDir_versions_agree legacy_store _ _ eq_refl)).
Defined.

(** X5: in src/file_io.c, when HOME is set, neither location exists
    and the memory holds the longer of the two paths, [getOidcDir]
    returns [NULL] and each of [readOidcFile], [writeOidcFile],
    [oidcFileDoesExist] and [removeOidcFile] takes [strlen] of it: none
    of the four has a defined result. *)
Theorem oidc_file_functions_without_directory (home filename text : string)
    (w : world) :
  w_home w = Some home →
  resolve (Some (home +:+ "/.config/oidc-agent/")) w = Err ENOENT →
  resolve (Some (home +:+ "/.oidc-agent/")) w = Err ENOENT →
  strlen home + 21 <= w_mem w →
  FileIo.getOidcDir w = Returns None w
  ∧ FileIo.readOidcFile filename w = Undefined
  ∧ FileIo.writeOidcFile filename text w = Undefined
  ∧ FileIo.oidcFileDoesExist filename w = Undefined
  ∧ FileIo.removeOidcFile filename w = Undefined.
Proof.
  intros Hhome H1 H2 Hmem.
  assert (FileIo.getOidcDir w = Returns None w) as Hdir.
  { unfold FileIo.getOidcDir, FileIo.possibleLocations. rewrite Hhome.
    rewrite getOidcDir_loop_absent; [|simpl; lia|exact H1].
    rewrite getOidcDir_loop_absent; [done|simpl; lia|exact H2]. }
  split; [done|].
  unfold FileIo.readOidcFile, FileIo.writeOidcFile, FileIo.oidcFileDoesExist,
    FileIo.removeOidcFile, FileIo.oidc_path.
  by rewrite Hdir.
Qed.

Lemma oidc_file_functions_without_directory_witness :
  FileIo.getOidcDir fresh_home = Returns None fresh_home
  ∧ FileIo.readOidcFile "work" fresh_home = Undefined
  ∧ FileIo.writeOidcFile "work" "text" fresh_home = Undefined
  ∧ FileIo.oidcFileDoesExist "work" fresh_home = Undefined
  ∧ FileIo.removeOidcFile "work" fresh_home = Undefined.
Proof.
  apply (oidc_file_functions_without_directory "/home/u" "work" "text"
           fresh_home); try reflexivity.
  vm_compute. lia.
Defined.

End PlainDirFacts.

(** ** More on [strcmp] *)
Section StrcmpFacts.
Import CStr Machine OidcFileIo.

Lemma bytewise_compare_eq (a b : string) :
  bytewise_compare a b = Eq → a = b.
Proof.
  revert b; induction a as [|x a IH]; intros [|y b]; simpl; try done.
  destruct (Nat.compare_spec (nat_of_ascii x) (nat_of_ascii y)) as [Heq| |];
    try done.
  intros ->%IH. f_equal.
  by rewrite <- (ascii_nat_embedding x), <- (ascii_nat_embedding y), Heq.
Qed.

Lemma bytewise_compare_refl (a : string) : bytewise_compare a a = Eq.
Proof. induction a as [|x a IH]; simpl; [done|]. by rewrite Nat.compare_refl. Qed.

Lemma strcmp_zero_eq (a b : string) :
  is_cstring a = true → is_cstring b = true → strcmp a b = 0%Z → a = b.
Proof.
  intros Ha Hb Hz. apply bytewise_compare_eq.
  rewrite <- (strcmp_sign a b Ha Hb), Hz. done.
Qed.

End StrcmpFacts.

(** ** src/utils/file_io/oidc_file_io.c: after the directory is created *)
Section AfterCreateFacts.
Import CStr Machine Classifier OidcFileIo Samples.

Lemma mkdir_look (path : string) (w w1 : world) :
  mkdir path w = Ok w1 →
  look path w = Absent
  ∧ (∃ st, resolve (Some path) w1 = Ok (Dir st []))
  ∧ (∃ r, w1 = set_root r w)
  ∧ ∀ q, components q ≠ components path → look q w1 = look q w.
Proof.
  unfold mkdir.
  destruct (String.eqb path "") eqn:Hne; [done|].
  destruct (parent_and_name (components path)) as [[parent name]|] eqn:Hpn;
    [|done].
  apply parent_and_name_Some in Hpn.
  destruct (update_dir parent _ (w_root w)) as [r|] eqn:Hup; [|done].
  intros [= <-].
  assert (∀ q, components q ≠ components path →
               look q (set_root r w) = look q w) as Hframe.
  { eapply update_dir_look;
      [exact Hpn | apply touches_only_mkdir | exact Hup]. }
  apply update_dir_inv in Hup as (st & es & es' & Hw & Hf & Hw').
  destruct (assoc name es) eqn:Ha; [done|]. injection Hf as <-.
  split; [|split; [|split; [by exists r|exact Hframe]]].
  - rewrite look_components, Hne, Hpn. unfold look_node.
    rewrite walk_app, Hw. simpl. by rewrite Ha.
  - eexists. unfold resolve. rewrite Hne, Hpn. simpl.
    rewrite walk_app, Hw'. simpl. by rewrite (assoc_app_new _ _ _ Ha).
Qed.

(** [open] of a new name in an empty directory. *)
Lemma open_creat_trunc_in_empty (dir name : string) (w : world) st :
  components name = [name] →
  String.eqb dir "" = false →
  resolve (Some dir) w = Ok (Dir st []) →
  ∃ w',
    open_creat_trunc (dir +:+ "/" +:+ name) w = Ok w'
    ∧ resolve (Some dir) w'
      = Ok (Dir st [(name, File {| st_mtime := w_clock w;
                                   st_atime := w_clock w |} "")]).
Proof.
  intros Hname Hne Hdir. unfold resolve in Hdir. rewrite Hne in Hdir.
  unfold open_creat_trunc, resolve.
  change (dir +:+ "/" +:+ name) with (dir +:+ String "/" name).
  rewrite app_slash_nonempty, components_slash, Hname, parent_and_name_snoc, Hne.
  set (f := fun es => match assoc name es with
                      | Some (Dir _ _) => _ | Some (File st0 _) => _
                      | None => _ end).
  destruct (update_dir_ok _ f _ _ _ _ Hdir eq_refl) as (r & -> & Hr).
  by eexists.
Qed.

Lemma createOidcDir_eq (marker home : string) (w : world) :
  w_home w = Some home →
  createOidcDir marker w
  = Returns (fst (createDir (Some (createOidcDir_target home w)) w))
      match open_creat_trunc (createOidcDir_target home w +:+ "/" +:+ marker)
              (snd (createDir (Some (createOidcDir_target home w)) w)) with
      | Ok w' => w'
      | Err _ => snd (createDir (Some (createOidcDir_target home w)) w)
      end.
Proof.
  intros Hhome. unfold createOidcDir, createOidcDir_target. rewrite Hhome.
  change (oidc_strcat (Some home) (Some "/.config"))
    with (Some (home +:+ "/.config")).
  rewrite dirExists_pos.
  destruct (is_directory (home +:+ "/.config") w);
    cbn [nth possibleLocations advance oidc_strcat];
    by destruct (createDir _ w).
Qed.

Lemma target_components (home : string) (w : world) :
  String.eqb (createOidcDir_target home w) "" = false
  ∧ components (createOidcDir_target home w)
    = (components home
       ++ if is_directory (home +:+ "/.config") w
          then [".config"; "oidc-agent"] else [".oidc-agent"])%list.
Proof.
  unfold createOidcDir_target. destruct (is_directory _ w).
  - split; [apply app_slash_nonempty|].
    change "/.config/oidc-agent/" with (String "/" ".config/oidc-agent/").
    by rewrite components_slash.
  - split; [apply app_slash_nonempty|].
    change "/.oidc-agent/" with (String "/" ".oidc-agent/").
    by rewrite components_slash.
Qed.

(** Below something that is not a directory there is no directory. *)
Lemma is_directory_parent (home : string) (w : world) :
  is_directory (home +:+ "/.config/oidc-agent/") w = true →
  is_directory (home +:+ "/.config") w = true.
Proof.
  unfold is_directory, resolve.
  change "/.config/oidc-agent/" with (String "/" ".config/oidc-agent/").
  change "/.config" with (String "/" ".config").
  rewrite !app_slash_nonempty, !components_slash.
  change (components ".config/oidc-agent/") with ([".config"] ++ ["oidc-agent"])%list.
  change (components ".config") with [".config"].
  rewrite app_assoc, (walk_app _ ["oidc-agent"]).
  by destruct (walk (components home ++ [".config"]) (w_root w)) as [[]|].
Qed.

(** What a successful [createOidcDir] leaves. *)
Lemma createOidcDir_success (marker home : string) (w w' : world) :
  w_home w = Some home →
  components marker = [marker] →
  createOidcDir marker w = Returns OIDC_SUCCESS w' →
  look (createOidcDir_target home w) w = Absent
  ∧ (∃ st st',
       resolve (Some (createOidcDir_target home w)) w'
       = Ok (Dir st [(marker, File st' "")]))
  ∧ w_home w' = Some home
  ∧ ∀ q, components q ≠ components (createOidcDir_target home w) →
         components q
         ≠ (components (createOidcDir_target home w) ++ [marker])%list →
         look q w' = look q w.
Proof.
  intros Hhome Hmarker. rewrite (createOidcDir_eq marker home w Hhome).
  set (target := createOidcDir_target home w).
  destruct (target_components home w) as [Hne _]. fold target in Hne.
  unfold createDir.
  destruct (mkdir target w) as [w1|] eqn:Hmk; cbn [fst snd]; [|done].
  apply mkdir_look in Hmk as (Habsent & [st Hdir] & [r ->] & Hframe).
  destruct (open_creat_trunc_in_empty target marker _ st Hmarker Hne Hdir)
    as (w2 & Hopen & Hdir2).
  rewrite Hopen. intros [= <-].
  apply open_creat_trunc_look in Hopen
    as (parent & name & r2 & Hpath & -> & _ & _ & Hframe2).
  split; [done|]. split; [by eexists _, _|]. split; [done|].
  intros q Hq Hq'. rewrite Hframe2, Hframe; [done|done|].
  change (target +:+ "/" +:+ marker) with (target +:+ String "/" marker).
  by rewrite components_slash, Hmarker.
Qed.

(** The directory [createOidcDir] made is the one [getOidcDir] finds. *)
Lemma createOidcDir_getOidcDir (ISSUER_CONFIG_FILENAME home : string)
    (w w' : world) :
  w_home w = Some home →
  components ISSUER_CONFIG_FILENAME = [ISSUER_CONFIG_FILENAME] →
  createOidcDir ISSUER_CONFIG_FILENAME w = Returns OIDC_SUCCESS w' →
  getOidcDir w'
  = Some (if is_directory (home +:+ "/.config") w
          then home +:+ "/.config/oidc-agent/"
          else home +:+ "/.oidc-agent/").
Proof.
  intros Hhome Hmarker Hcreate.
  destruct (createOidcDir_success _ _ _ _ Hhome Hmarker Hcreate)
    as (_ & (st & st' & Hdir) & Hhome' & Hframe).
  destruct (target_components home w) as [_ Hcomp].
  assert (is_directory (createOidcDir_target home w) w' = true) as Htarget
    by (unfold is_directory; by rewrite Hdir).
  unfold getOidcDir. rewrite Hhome'.
  cbn [getOidcDir_loop possibleLocations advance oidc_strcat].
  rewrite !dirExists_pos.
  unfold createOidcDir_target in *.
  destruct (is_directory (home +:+ "/.config") w) eqn:Hconfig.
  - by rewrite Htarget.
  - rewrite Htarget.
    assert (look (home +:+ "/.config/oidc-agent/") w'
            = look (home +:+ "/.config/oidc-agent/") w) as Hsame.
    { assert (components (home +:+ "/.config/oidc-agent/")
              = (components home ++ [".config"; "oidc-agent"])%list) as Hc1.
      { change "/.config/oidc-agent/" with (String "/" ".config/oidc-agent/").
        by rewrite components_slash. }
      apply Hframe; rewrite Hc1, Hcomp.
      - by intros [=]%app_inv_head.
      - rewrite <- app_assoc. by intros [=]%app_inv_head. }
    destruct (is_directory (home +:+ "/.config/oidc-agent/") w') eqn:Hnested;
      [|done].
    apply is_directory_look in Hnested. rewrite Hsame in Hnested.
    apply is_directory_look, is_directory_parent in Hnested. congruence.
Qed.

(** X6: after [createOidcDir] has returned [OIDC_SUCCESS], [getOidcDir]
    returns the directory it created, in the nested place when
    "~/.config" was a directory and in the legacy place otherwise. *)
Theorem createOidcDir_then_getOidcDir (ISSUER_CONFIG_FILENAME home : string)
    (w w' : world) :
  w_home w = Some home →
  components ISSUER_CONFIG_FILENAME = [ISSUER_CONFIG_FILENAME] →
  createOidcDir ISSUER_CONFIG_FILENAME w = Returns OIDC_SUCCESS w' →
  getOidcDir w'
  = Some (if is_directory (home +:+ "/.config") w
          then home +:+ "/.config/oidc-agent/"
          else home +:+ "/.oidc-agent/").
Proof. apply createOidcDir_getOidcDir. Qed.

Lemma createOidcDir_then_getOidcDir_witness :
  (∃ w', createOidcDir "issuer.config" fresh_home = Returns OIDC_SUCCESS w'
         ∧ getOidcDir w' = Some "/home/u/.oidc-agent/")
  ∧ (∃ w', createOidcDir "issuer.config" home_with_config
           = Returns OIDC_SUCCESS w'
           ∧ getOidcDir w' = Some "/home/u/.config/oidc-agent/").
Proof.
  split; eexists; (split; [reflexivity|]).
  - exact (createOidcDir_then_getOidcDir "issuer.config" "/home/u" fresh_home _
             eq_refl eq_refl eq_refl).
  - exact (createOidcDir_then_getOidcDir "issuer.config" "/home/u"
             home_with_config _ eq_refl eq_refl eq_refl).
Defined.

(** The two pseudo entries are never handed to the predicate. *)
Lemma candidates_of_directory (have : bool) (es : list (string * node)) :
  candidates have ({| d_name := "."; d_type := DT_DIR |}
                   :: {| d_name := ".."; d_type := DT_DIR |}
                   :: map dirent_of es)
  = candidates have (map dirent_of es).
Proof. reflexivity. Qed.

(** X7: after [createOidcDir] has returned [OIDC_SUCCESS] with a marker
    whose name ends with ".config", the new directory holds the marker
    ([getFileListForDir] lists it) and lists no account configuration
    and no client configuration: both lists are empty, and no error is
    reported. *)
Theorem createOidcDir_then_lists (have : bool)
    (ISSUER_CONFIG_FILENAME home : string) (w w' : world) :
  w_home w = Some home →
  components ISSUER_CONFIG_FILENAME = [ISSUER_CONFIG_FILENAME] →
  is_cstring ISSUER_CONFIG_FILENAME = true →
  strEnds ISSUER_CONFIG_FILENAME ".config" = true →
  createOidcDir ISSUER_CONFIG_FILENAME w = Returns OIDC_SUCCESS w' →
  getAccountConfigFileList have w' = Returns (Some []) w'
  ∧ getClientConfigFileList have w' = Returns [] w'
  ∧ getFileListForDir have (getOidcDir w') w'
    = Returns (Some [ISSUER_CONFIG_FILENAME]) w'.
Proof.
  intros Hhome Hmarker Hcstr Hends Hcreate.
  pose proof (createOidcDir_getOidcDir _ _ _ _ Hhome Hmarker Hcreate)
    as Hget.
  destruct (createOidcDir_success _ _ _ _ Hhome Hmarker Hcreate)
    as (_ & (st & st' & Hdir) & _ & _).
  unfold createOidcDir_target in Hdir.
  assert (isAccountConfigFile ISSUER_CONFIG_FILENAME = false) as Hacc.
  { rewrite isAccountConfigFile_eq, Hends. apply andb_false_r. }
  assert (isClientConfigFile ISSUER_CONFIG_FILENAME = false) as Hcli.
  { destruct (isClientConfigFile ISSUER_CONFIG_FILENAME) eqn:Hc; [|done].
    pose proof (client_not_dot_config "" _ Hc) as Hn. simpl in Hn. congruence. }
  assert ((strcmp ISSUER_CONFIG_FILENAME "." =? 0)%Z = false) as Hdot.
  { apply Z.eqb_neq. intros Hz.
    apply (strcmp_zero_eq _ "." Hcstr eq_refl) in Hz. by rewrite Hz in Hends. }
  assert ((strcmp ISSUER_CONFIG_FILENAME ".." =? 0)%Z = false) as Hdotdot.
  { apply Z.eqb_neq. intros Hz.
    apply (strcmp_zero_eq _ ".." Hcstr eq_refl) in Hz. by rewrite Hz in Hends. }
  unfold getAccountConfigFileList, getClientConfigFileList,
    getAccountConfigFileList_amid, getClientConfigFileList_amid,
    getFileListForDir, getFileListForDirIf, opendir.
  rewrite Hget, Hdir, !readdir_loop_spec, candidates_of_directory.
  unfold candidates, candidate. cbn [map dirent_of fst snd List.filter d_name d_type].
  rewrite Hdot, Hdotdot.
  destruct have;
    cbn [negb orb andb map List.filter app dirent_of d_name d_type fst snd];
    rewrite ?Hacc, ?Hcli; by repeat split.
Qed.

Lemma createOidcDir_then_lists_witness :
  ∃ w', createOidcDir "issuer.config" fresh_home = Returns OIDC_SUCCESS w'
        ∧ getAccountConfigFileList true w' = Returns (Some []) w'
        ∧ getClientConfigFileList true w' = Returns [] w'.
Proof.
  eexists. split; [reflexivity|].
  destruct (createOidcDir_then_lists true "issuer.config" "/home/u" fresh_home _
              eq_refl eq_refl eq_refl eq_refl eq_refl) as (Ha & Hc & _).
  split; [exact Ha|exact Hc].
Defined.

(** X8: [createOidcDir] on a target that is a directory already returns
    [OIDC_EERROR] and sets [oidc_errno]; it still opens the marker with
    truncation, so that a marker that is not a directory is an empty
    file afterwards, and every other path shows what it showed: the
    configurations in the directory are as they were. *)
Theorem createOidcDir_on_existing_directory
    (ISSUER_CONFIG_FILENAME home : string) (w : world) :
  w_home w = Some home →
  components ISSUER_CONFIG_FILENAME = [ISSUER_CONFIG_FILENAME] →
  is_directory (createOidcDir_target home w) w = true →
  ∃ w',
    createOidcDir ISSUER_CONFIG_FILENAME w = Returns OIDC_EERROR w'
    ∧ w_oidc_errno w' = OIDC_EERROR
    ∧ (∀ q, components q
            ≠ (components (createOidcDir_target home w)
               ++ [ISSUER_CONFIG_FILENAME])%list →
            look q w' = look q w)
    ∧ (look (createOidcDir_target home w +:+ "/" +:+ ISSUER_CONFIG_FILENAME) w
       ≠ IsDir →
       look (createOidcDir_target home w +:+ "/" +:+ ISSUER_CONFIG_FILENAME) w'
       = IsFile "").
Proof.
  intros Hhome Hmarker Hdir. rewrite (createOidcDir_eq _ home w Hhome).
  set (target := createOidcDir_target home w) in *.
  set (marker := target +:+ "/" +:+ ISSUER_CONFIG_FILENAME).
  destruct (target_components home w) as [Hne _]. fold target in Hne.
  assert (components marker
          = (components target ++ [ISSUER_CONFIG_FILENAME])%list) as Hcomp.
  { subst marker.
    change (target +:+ "/" +:+ ISSUER_CONFIG_FILENAME)
      with (target +:+ String "/" ISSUER_CONFIG_FILENAME).
    by rewrite components_slash, Hmarker. }
  unfold createDir.
  destruct (mkdir target w) as [w1|e] eqn:Hmk.
  { apply mkdir_look in Hmk as (Habsent & _).
    apply is_directory_look in Hdir. congruence. }
  cbn [fst snd].
  set (we := set_oidc_errno OIDC_EERROR (set_oidc_error e w)).
  eexists. split; [done|].
  destruct (open_creat_trunc marker we) as [w2|e2] eqn:Hopen.
  - pose proof Hopen as Hlook.
    apply open_creat_trunc_look in Hlook
      as (parent & name & r & Hpath & -> & _ & (st & es & st' & Hw & Ha) & Hframe).
    split; [done|]. split.
    + intros q Hq. rewrite Hframe; [done|]. by rewrite Hcomp.
    + intros _. rewrite look_components.
      change marker with (target +:+ String "/" ISSUER_CONFIG_FILENAME) at 1.
      rewrite app_slash_nonempty, Hpath. unfold look_node.
      rewrite walk_app. simpl. rewrite Hw. simpl. by rewrite Ha.
  - split; [done|]. split; [done|]. intros Hnotdir. exfalso.
    apply is_directory_look in Hdir. rewrite look_components, Hne in Hdir.
    unfold look_node in Hdir.
    destruct (walk (components target) (w_root w)) as [[|st es]|] eqn:Hw;
      try done.
    destruct (open_creat_trunc_in_directory target ISSUER_CONFIG_FILENAME we st es
                Hmarker Hw) as (w2 & _ & _ & _ & Hok & _).
    + intros st' es' Ha. apply Hnotdir.
      rewrite look_components.
      change marker with (target +:+ String "/" ISSUER_CONFIG_FILENAME) at 1.
      rewrite app_slash_nonempty, Hcomp. unfold look_node.
      rewrite walk_app, Hw. simpl. by rewrite Ha.
    + fold marker in Hok. congruence.
Qed.

Lemma createOidcDir_on_existing_directory_witness :
  ∃ w', createOidcDir "issuer.config" legacy_store = Returns OIDC_EERROR w'
        ∧ look "/home/u/.oidc-agent/work" w' = IsFile "cipher-a"
        ∧ look "/home/u/.oidc-agent/work.clientconfig" w' = IsFile "cipher-b".
Proof.
  destruct (createOidcDir_on_existing_directory "issuer.config" "/home/u"
              legacy_store eq_refl eq_refl eq_refl) as (w' & Hret & _ & Hframe & _).
  exists w'. split; [exact Hret|]. split.
  - rewrite (Hframe "/home/u/.oidc-agent/work"); [reflexivity|].
    vm_compute. discriminate.
  - rewrite (Hframe "/home/u/.oidc-agent/work.clientconfig"); [reflexivity|].
    vm_compute. discriminate.
Defined.

End AfterCreateFacts.

(** ** src/utils/file_io/oidc_file_io.c: what the lister selects *)
Section ListerFacts.
Import CStr Machine Classifier OidcFileIo Samples.

Lemma filter_sublist {A} (p : A → bool) (l : list A) :
  sublist (List.filter p l) l.
Proof.
  induction l as [|x l IH]; simpl; [constructor|].
  destruct (p x); by constructor.
Qed.

Lemma map_sublist {A B} (f : A → B) (l1 l2 : list A) :
  sublist l1 l2 → sublist (map f l1) (map f l2).
Proof. induction 1; simpl; by constructor. Qed.

Lemma candidate_spec (have : bool) (ent : dirent) :
  candidate have ent = true →
  d_name ent ≠ "." ∧ d_name ent ≠ ".."
  ∧ (have = true → d_type ent = DT_REG).
Proof.
  unfold candidate.
  intros [[Hdot Hdotdot]%andb_true_iff Htype]%andb_true_iff.
  split; [|split].
  - intros Heq. by rewrite Heq in Hdot.
  - intros Heq. by rewrite Heq in Hdotdot.
  - intros ->. by destruct (d_type ent).
Qed.

(** X9: on a directory name that is not null, [getFileListForDirIf]
    returns.  When the directory opens it leaves the state as it is and
    returns, in the order of the directory, the names of the entries
    that pass its predicate: never "." or "..", regular files only where
    the entry type is at hand, and every such entry.  When the directory
    does not open it returns [NULL], sets [oidc_errno] to [OIDC_EERROR],
    keeps the reason, and leaves the file system as it is.  On a null
    name nothing is defined: the name goes to [opendir] unchecked. *)
Theorem getFileListForDirIf_selects (have : bool) (dirname : string)
    (match_ : string → bool) (w : world) :
  getFileListForDirIf have None match_ w = Undefined
  ∧ match opendir dirname w with
    | Ok ents =>
        ∃ lst,
          getFileListForDirIf have (Some dirname) match_ w
          = Returns (Some lst) w
          ∧ sublist lst (map d_name ents)
          ∧ (∀ name, In name lst →
               match_ name = true ∧ name ≠ "." ∧ name ≠ ".."
               ∧ ∃ ent, In ent ents ∧ d_name ent = name
                        ∧ (have = true → d_type ent = DT_REG))
          ∧ (∀ ent, In ent ents → candidate have ent = true →
               match_ (d_name ent) = true → In (d_name ent) lst)
    | Err e =>
        ∃ w',
          getFileListForDirIf have (Some dirname) match_ w = Returns None w'
          ∧ w_oidc_error w' = Some e
          ∧ w_oidc_errno w' = OIDC_EERROR
          ∧ w_root w' = w_root w
    end.
Proof.
  split; [reflexivity|].
  unfold getFileListForDirIf.
  destruct (opendir dirname w) as [ents|e]; [|by eauto].
  eexists. split; [reflexivity|]. rewrite readdir_loop_spec. simpl.
  split; [|split].
  - unfold candidates. etrans; [apply filter_sublist|].
    apply map_sublist, filter_sublist.
  - intros name [Hin Hm]%filter_In. split; [done|].
    unfold candidates in Hin.
    apply in_map_iff in Hin as (ent & <- & [Hent Hc]%filter_In).
    destruct (candidate_spec _ _ Hc) as (? & ? & ?). eauto 10.
  - intros ent Hent Hc Hm. apply filter_In. split; [|done].
    apply in_map_iff. exists ent. split; [done|]. by apply filter_In.
Qed.

(** Every name is of one kind. *)
Lemma classification_trichotomy (name : string) :
  (if isAccountConfigFile name then 1 else 0)
  + (if isClientConfigFile name then 1 else 0)
  + (if negb (isClientConfigFile name) && strEnds name ".config" then 1 else 0)
  = 1.
Proof.
  rewrite isAccountConfigFile_eq.
  by destruct (isClientConfigFile name), (strEnds name ".config").
Qed.

Lemma filter_three_lengths (l : list string) :
  length (List.filter isAccountConfigFile l)
  + length (List.filter isClientConfigFile l)
  + length (List.filter
              (fun name => negb (isClientConfigFile name)
                           && strEnds name ".config") l)
  = length l.
Proof.
  induction l as [|name l IH]; simpl; [done|].
  pose proof (classification_trichotomy name) as H.
  destruct (isAccountConfigFile name), (isClientConfigFile name),
    (negb _ && strEnds name ".config"); simpl in *; lia.
Qed.

(** X10: in a configuration directory that is found and opens, the
    account list is the list of [getFileListForDir] filtered by
    [isAccountConfigFile], the client list is that list filtered by
    [isClientConfigFile] with the directory put in front of each name,
    and every name [getFileListForDir] lists is an account
    configuration, a client configuration, or a name that ends with
    ".config": the three counts add up. *)
Theorem config_lists_partition (have : bool) (w w' : world) (dir : string)
    (all : list string) :
  getOidcDir w = Some dir →
  getFileListForDir have (Some dir) w = Returns (Some all) w' →
  getAccountConfigFileList have w
  = Returns (Some (List.filter isAccountConfigFile all)) w
  ∧ getClientConfigFileList have w
    = Returns (map (fun name => Some (dir +:+ name))
                 (List.filter isClientConfigFile all)) w
  ∧ length (List.filter isAccountConfigFile all)
    + length (List.filter isClientConfigFile all)
    + length (List.filter
                (fun name => negb (isClientConfigFile name)
                             && strEnds name ".config") all)
    = length all.
Proof.
  intros Hdir.
  unfold getFileListForDir, getAccountConfigFileList, getClientConfigFileList,
    getAccountConfigFileList_amid, getClientConfigFileList_amid,
    getFileListForDirIf.
  rewrite Hdir. destruct (opendir dir w) as [ents|]; [|done].
  rewrite !readdir_loop_spec, qualify_loop_spec. simpl. intros [= <- _].
  assert (List.filter alwaysOne (candidates have ents) = candidates have ents)
    as ->.
  { induction (candidates have ents) as [|x l IH]; simpl; [done|].
    by rewrite IH. }
  split; [done|]. split; [done|]. apply filter_three_lengths.
Qed.

Lemma config_lists_partition_witness :
  getFileListForDir true (Some "/home/u/.oidc-agent/") legacy_store
  = Returns (Some ["issuer.config"; "work"; "work.clientconfig"]) legacy_store
  ∧ getAccountConfigFileList true legacy_store
    = Returns (Some ["work"]) legacy_store
  ∧ getClientConfigFileList true legacy_store
    = Returns [Some "/home/u/.oidc-agent/work.clientconfig"] legacy_store.
Proof.
  split; [reflexivity|].
  destruct (config_lists_partition true legacy_store legacy_store
              "/home/u/.oidc-agent/" _ eq_refl eq_refl) as (Ha & Hc & _).
  split; [exact Ha|exact Hc].
Defined.

End ListerFacts.

(** ** Names with one occurrence of the suffix *)
Section SingleOccurrenceFacts.
Import CStr Classifier.

(** A test for it: [strstr] finds nothing past the first occurrence. *)
Lemma at_most_one_occurrence_test (needle name : string) :
  match strstr name needle with
  | Some pos => strstr (advance 1 pos) needle = None
  | None => True
  end →
  at_most_one_occurrence needle name.
Proof.
  destruct (strstr name needle) as [pos|] eqn:Hfirst.
  - intros Hrest.
    apply strstr_Some in Hfirst as (pre0 & -> & [rest0 ->]%starts_with_spec & Hmin).
    assert (∀ pre, occurs_after pre needle (pre0 +:+ needle +:+ rest0) →
                   pre = pre0) as Hall.
    { intros pre [rest Hocc].
      assert (strlen pre0 <= strlen pre) as Hle by (apply Hmin; by exists rest).
      destruct (advance_split (strlen pre0) pre Hle) as (p1 & Hpre & Hp1).
      remember (advance (strlen pre0) pre) as x eqn:Hx. clear Hx. subst pre.
      rewrite app_assoc_str in Hocc.
      apply app_inv_strlen_l in Hocc as [<- Hocc]; [|done].
      destruct x as [|c x].
      - by rewrite app_empty_r.
      - exfalso. apply (strstr_None _ _ Hrest x). exists rest.
        by rewrite Hocc. }
    intros pre pre' H1 H2. by rewrite (Hall pre H1), (Hall pre' H2).
  - intros _ pre pre' H1 _. by destruct (strstr_None _ _ Hfirst pre).
Qed.

(** X11: on a name that holds ".clientconfig" at one place at most,
    [isClientConfigFile] is the reading of the specification: the name
    ends with ".clientconfig", or ".clientconfig" is followed by digits
    only. *)
Theorem isClientConfigFile_single_occurrence (name : string) :
  at_most_one_occurrence ".clientconfig" name →
  isClientConfigFile name = spec_isClientConfig name.
Proof.
  intros Hone. apply eq_true_iff_eq.
  rewrite isClientConfigFile_spec. unfold spec_isClientConfig.
  rewrite orb_true_iff, strEnds_spec, some_occurrence_then_digits_spec.
  split; (intros [H|(pre & digits & Hname & Hd)]; [by left|right]).
  - destruct Hd as [Hd _]. by exists pre, digits.
  - exists pre, digits. split; [done|]. split; [done|].
    intros pre' Hocc.
    assert (pre = pre') as ->; [|done].
    apply Hone; [by exists digits|done].
Qed.

Lemma isClientConfigFile_single_occurrence_witness :
  at_most_one_occurrence ".clientconfig" "a.clientconfig03"
  ∧ isClientConfigFile "a.clientconfig03" = true
  ∧ spec_isClientConfig "a.clientconfig03" = true.
Proof.
  assert (at_most_one_occurrence ".clientconfig" "a.clientconfig03") as Hone
    by (apply at_most_one_occurrence_test; reflexivity).
  split; [exact Hone|].
  rewrite (isClientConfigFile_single_occurrence "a.clientconfig03" Hone).
  split; reflexivity.
Defined.

End SingleOccurrenceFacts.

(** ** The comparators as orders *)
Section OrderFacts.
Import CStr Machine OidcFileIo Samples.

Lemma strcmp_refl (a : string) : strcmp a a = 0%Z.
Proof. induction a as [|x a IH]; simpl; [done|]. by rewrite Ascii.eqb_refl. Qed.

Lemma strcmp_antisym (a b : string) : strcmp b a = (- strcmp a b)%Z.
Proof.
  revert b; induction a as [|x a IH]; intros [|y b]; simpl; try lia.
  rewrite (Ascii.eqb_sym y x). destruct (Ascii.eqb x y); [apply IH|lia].
Qed.

Lemma bytewise_compare_lt_trans (a b c : string) :
  bytewise_compare a b = Lt → bytewise_compare b c = Lt →
  bytewise_compare a c = Lt.
Proof.
  revert b c; induction a as [|x a IH]; intros [|y b] [|z c]; simpl; try done.
  destruct (Nat.compare_spec (nat_of_ascii x) (nat_of_ascii y)),
           (Nat.compare_spec (nat_of_ascii y) (nat_of_ascii z)),
           (Nat.compare_spec (nat_of_ascii x) (nat_of_ascii z));
    try done; try lia.
  apply IH.
Qed.

(** X12: on C strings [compareFilesByName] is an order by name: a name
    compares 0 with itself and with no other name, swapping the
    arguments changes the sign of the result, and "less than" is
    transitive. *)
Theorem compareFilesByName_order (a b c : string) :
  is_cstring a = true → is_cstring b = true → is_cstring c = true →
  compareFilesByName a a = 0%Z
  ∧ (compareFilesByName a b = 0%Z ↔ a = b)
  ∧ compareFilesByName b a = (- compareFilesByName a b)%Z
  ∧ ((compareFilesByName a b < 0)%Z → (compareFilesByName b c < 0)%Z →
     (compareFilesByName a c < 0)%Z).
Proof.
  intros Ha Hb Hc. unfold compareFilesByName.
  split; [apply strcmp_refl|]. split; [|split; [apply strcmp_antisym|]].
  - split; [by apply strcmp_zero_eq|]. intros ->. apply strcmp_refl.
  - rewrite <- !Z.compare_lt_iff, !strcmp_sign by done.
    apply bytewise_compare_lt_trans.
Qed.

Lemma compareFilesByName_order_witness :
  (compareFilesByName "work" "work.clientconfig" < 0)%Z
  ∧ (compareFilesByName "work.clientconfig" "x" < 0)%Z
  ∧ (compareFilesByName "work" "x" < 0)%Z
  ∧ compareFilesByName "x" "work" = (- compareFilesByName "work" "x")%Z.
Proof.
  destruct (compareFilesByName_order "work" "work.clientconfig" "x"
              eq_refl eq_refl eq_refl) as (_ & _ & _ & Htrans).
  destruct (compareFilesByName_order "work" "x" "x" eq_refl eq_refl eq_refl)
    as (_ & _ & Hanti & _).
  assert ((compareFilesByName "work" "work.clientconfig" < 0)%Z) as H1
    by reflexivity.
  assert ((compareFilesByName "work.clientconfig" "x" < 0)%Z) as H2
    by reflexivity.
  split; [exact H1|]. split; [exact H2|]. split; [exact (Htrans H1 H2)|exact Hanti].
Defined.

(** X13: the two comparators by date order the files by the time stamp
    [stat] reports: a file compares 0 with itself, swapping the
    arguments changes the sign, and "not later than" is transitive.  A
    path [stat] cannot read counts as time stamp 0; without a
    configuration directory every pair compares 0. *)
Theorem date_comparators_order (f1 f2 f3 : string) (w : world) :
  compareOidcFilesByDateModified f1 f1 w = 0%Z
  ∧ compareOidcFilesByDateAccessed f1 f1 w = 0%Z
  ∧ compareOidcFilesByDateModified f2 f1 w
    = (- compareOidcFilesByDateModified f1 f2 w)%Z
  ∧ compareOidcFilesByDateAccessed f2 f1 w
    = (- compareOidcFilesByDateAccessed f1 f2 w)%Z
  ∧ ((compareOidcFilesByDateModified f1 f2 w <= 0)%Z →
     (compareOidcFilesByDateModified f2 f3 w <= 0)%Z →
     (compareOidcFilesByDateModified f1 f3 w <= 0)%Z)
  ∧ ((compareOidcFilesByDateAccessed f1 f2 w <= 0)%Z →
     (compareOidcFilesByDateAccessed f2 f3 w <= 0)%Z →
     (compareOidcFilesByDateAccessed f1 f3 w <= 0)%Z)
  ∧ (∀ e, resolve (concatToOidcDir f1 w) w = Err e →
          compareOidcFilesByDateModified f1 f2 w
          = sign_of (0 ?= st_mtime (stat (concatToOidcDir f2 w) secAlloc_stat w))%Z
          ∧ compareOidcFilesByDateAccessed f1 f2 w
            = sign_of (0 ?= st_atime (stat (concatToOidcDir f2 w) secAlloc_stat w))%Z)
  ∧ (getOidcDir w = None →
     compareOidcFilesByDateModified f1 f2 w = 0%Z
     ∧ compareOidcFilesByDateAccessed f1 f2 w = 0%Z).
Proof.
  unfold compareOidcFilesByDateModified, compareOidcFilesByDateAccessed.
  set (s1 := stat (concatToOidcDir f1 w) secAlloc_stat w).
  set (s2 := stat (concatToOidcDir f2 w) secAlloc_stat w).
  set (s3 := stat (concatToOidcDir f3 w) secAlloc_stat w).
  assert (∀ x y : Z,
             (if (x >? y)%Z then 1%Z else if (x <? y)%Z then (-1)%Z else 0%Z)
             = sign_of (x ?= y)%Z) as Hsign.
  { intros x y. destruct (Z.gtb_spec x y), (Z.ltb_spec x y),
      (Z.compare_spec x y); simpl; lia. }
  rewrite !Hsign.
  assert (∀ x y : Z, sign_of (y ?= x)%Z = (- sign_of (x ?= y))%Z) as Hanti.
  { intros x y. destruct (Z.compare_spec x y), (Z.compare_spec y x);
      simpl; lia. }
  assert (∀ x y z : Z, (sign_of (x ?= y) <= 0)%Z → (sign_of (y ?= z) <= 0)%Z →
                       (sign_of (x ?= z) <= 0)%Z) as Htrans.
  { intros x y z. destruct (Z.compare_spec x y), (Z.compare_spec y z),
      (Z.compare_spec x z); simpl; lia. }
  rewrite !Z.compare_refl.
  repeat split; try apply Hanti; try apply Htrans; try done.
  - subst s1. unfold stat. by rewrite H.
  - subst s1. unfold stat. by rewrite H.
  - subst s1 s2. unfold concatToOidcDir. by rewrite H.
  - subst s1 s2. unfold concatToOidcDir. by rewrite H.
Qed.

Lemma date_comparators_order_witness :
  resolve (concatToOidcDir "none" legacy_store) legacy_store = Err ENOENT
  ∧ compareOidcFilesByDateModified "none" "work" legacy_store = (-1)%Z
  ∧ getOidcDir fresh_home = None
  ∧ compareOidcFilesByDateModified "a" "b" fresh_home = 0%Z.
Proof.
  destruct (date_comparators_order "none" "work" "work" legacy_store)
    as (_ & _ & _ & _ & _ & _ & Hmissing & _).
  destruct (date_comparators_order "a" "b" "b" fresh_home)
    as (_ & _ & _ & _ & _ & _ & _ & Hnodir).
  split; [reflexivity|]. split; [exact (proj1 (Hmissing ENOENT eq_refl))|].
  split; [reflexivity|]. exact (proj1 (Hnodir eq_refl)).
Defined.

End OrderFacts.

(** ** src/utils/file_io/promptCryptFileUtils.c: arguments and addressing *)
Section PromptArgumentFacts.
Import CStr Machine PromptCrypt Samples.

(** X14: with a required argument missing, each of the seven operations
    returns at once: the write operations return the code
    [oidc_setArgNullFuncError] leaves in [oidc_errno], the decryption
    operations return null results, and in the state only [oidc_errno]
    has changed, whatever the collaborators are: nobody is prompted and
    nothing is read, written or erased. *)
Theorem null_arguments_are_refused (C : collaborators)
    (text filepath oidc_filename hint suggestedPassword pw_cmd : option string)
    (w : world) :
  (is_null text || is_null hint
   || (is_null filepath && is_null oidc_filename) = true →
   _promptAndCryptAndWriteToAnyFile C text filepath oidc_filename hint
     suggestedPassword pw_cmd w
   = (OIDC_EARGNULLFUNC, set_oidc_errno OIDC_EARGNULLFUNC w))
  ∧ (is_null text || is_null filepath || is_null hint = true →
     promptEncryptAndWriteToFile C text filepath hint suggestedPassword pw_cmd w
     = (OIDC_EARGNULLFUNC, set_oidc_errno OIDC_EARGNULLFUNC w)
     ∧ promptEncryptAndWriteToOidcFile C text filepath hint suggestedPassword
         pw_cmd w
       = (OIDC_EARGNULLFUNC, set_oidc_errno OIDC_EARGNULLFUNC w))
  ∧ getDecryptedFileAndPasswordFor C None pw_cmd w
    = (RESULT_WITH_PASSWORD_NULL, set_oidc_errno OIDC_EARGNULLFUNC w)
  ∧ getDecryptedOidcFileAndPasswordFor C None pw_cmd w
    = (RESULT_WITH_PASSWORD_NULL, set_oidc_errno OIDC_EARGNULLFUNC w)
  ∧ getDecryptedFileFor C None pw_cmd w
    = (None, set_oidc_errno OIDC_EARGNULLFUNC w)
  ∧ getDecryptedOidcFileFor C None pw_cmd w
    = (None, set_oidc_errno OIDC_EARGNULLFUNC w).
Proof.
  unfold _promptAndCryptAndWriteToAnyFile, promptEncryptAndWriteToFile,
    promptEncryptAndWriteToOidcFile.
  split; [by intros ->|]. split; [|done].
  by intros ->.
Qed.

Lemma null_arguments_are_refused_witness :
  promptEncryptAndWriteToFile typing_user (Some "secret") None
    (Some "the account") None None fresh_home
  = (OIDC_EARGNULLFUNC, set_oidc_errno OIDC_EARGNULLFUNC fresh_home)
  ∧ live 0 (snd (promptEncryptAndWriteToFile typing_user (Some "secret") None
                   (Some "the account") None None fresh_home)) = false.
Proof.
  destruct (null_arguments_are_refused typing_user (Some "secret") None None
              (Some "the account") None None fresh_home) as (_ & H & _).
  destruct (H eq_refl) as [-> _]. split; reflexivity.
Defined.

(** X15: the two ways of addressing.  With a logical file name
    [_promptAndCryptAndWriteToAnyFile] does what
    [promptEncryptAndWriteToOidcFile] does with that name, whatever path
    comes with it and whatever [encryptAndWriteToFile] is: the logical
    name takes precedence.  With a path alone it does what
    [promptEncryptAndWriteToFile] does. *)
Theorem logical_filename_takes_precedence (C : collaborators)
    (text filepath hint suggestedPassword pw_cmd : option string)
    (name path : string) (w : world) :
  _promptAndCryptAndWriteToAnyFile C text filepath (Some name) hint
    suggestedPassword pw_cmd w
  = promptEncryptAndWriteToOidcFile C text (Some name) hint
      suggestedPassword pw_cmd w
  ∧ (∀ C' : collaborators,
        getEncryptionPasswordFor C' = getEncryptionPasswordFor C →
        encryptAndWriteToOidcFile C' = encryptAndWriteToOidcFile C →
        _promptAndCryptAndWriteToAnyFile C' text filepath (Some name) hint
          suggestedPassword pw_cmd w
        = _promptAndCryptAndWriteToAnyFile C text None (Some name) hint
            suggestedPassword pw_cmd w)
  ∧ _promptAndCryptAndWriteToAnyFile C text (Some path) None hint
      suggestedPassword pw_cmd w
    = promptEncryptAndWriteToFile C text (Some path) hint
        suggestedPassword pw_cmd w.
Proof.
  unfold promptEncryptAndWriteToOidcFile, promptEncryptAndWriteToFile,
    _promptAndCryptAndWriteToAnyFile.
  split; [|split].
  - destruct text, hint, filepath; simpl; try done;
      by destruct (getEncryptionPasswordFor C _ _ _ w) as [[]].
  - intros C' -> ->.
    destruct text, hint, filepath; simpl; try done.
  - by destruct text, hint.
Qed.

End PromptArgumentFacts.

(** ** src/file_io.c: the files of the configuration directory *)
Section PlainOidcFileFacts.
Import CStr Machine Samples.

Lemma getOidcDir_loop_mem (home : string) (locations : list string)
    (w w' : world) (path : string) :
  FileIo.getOidcDir_loop home locations w = Returns (Some path) w' →
  strlen path + 1 <= w_mem w.
Proof.
  revert w; induction locations as [|location rest IH]; intros w;
    cbn [FileIo.getOidcDir_loop]; [done|].
  destruct (FileIo.calloc _ w) as [w1|] eqn:Hc; [|done].
  pose proof (calloc_free _ _ _ Hc) as Hfree.
  apply calloc_Some in Hc as [Hsize Hw1].
  destruct (FileIo.dirExists _ w1) as [d w2| |] eqn:Hd; try done.
  apply dirExists_returns in Hd as [-> _].
  destruct (d >? 0)%Z.
  - intros [= <- _]. by rewrite strlen_app.
  - rewrite Hfree. apply IH.
Qed.

(** [removeFile] and the memory. *)
Lemma removeFile_set_mem (path : string) (m : nat) (w : world) :
  FileIo.removeFile path (set_mem m w)
  = (fst (FileIo.removeFile path w), set_mem m (snd (FileIo.removeFile path w))).
Proof.
  unfold FileIo.removeFile, unlink.
  change (w_root (set_mem m w)) with (w_root w).
  destruct (String.eqb path ""); [done|].
  destruct (parent_and_name (components path)) as [[parent name]|]; [|done].
  by destruct (update_dir parent _ (w_root w)).
Qed.

(** The path the four functions work on, and the memory it takes. *)
Lemma oidc_path_returns (filename path : string) (w w1 : world) :
  FileIo.oidc_path filename w = Returns path w1 →
  ∃ dir,
    OidcFileIo.getOidcDir w = Some dir
    ∧ path = dir +:+ filename
    ∧ strlen path + 1 <= w_mem w
    ∧ w1 = set_mem (w_mem w - (strlen path + 1)) w.
Proof.
  unfold FileIo.oidc_path.
  destruct (FileIo.getOidcDir w) as [[dir|] wa| |] eqn:Hdir; try done.
  assert (strlen dir + 1 <= w_mem w) as Hmem.
  { unfold FileIo.getOidcDir in Hdir. destruct (w_home w); [|done].
    by apply getOidcDir_loop_mem in Hdir. }
  apply getOidcDir_loop_agrees' in Hdir as [Hnew ->].
  destruct (FileIo.calloc _ _) as [wb|] eqn:Hc; [|done].
  apply calloc_Some in Hc as [Hsize ->]. simpl in Hsize.
  intros [= <- <-]. exists dir. split; [done|]. split; [done|].
  rewrite strlen_app. split; [lia|].
  unfold FileIo.free. simpl. rewrite !set_mem_set_mem. f_equal. lia.
Qed.

(** X16: in src/file_io.c, where they return, [writeOidcFile],
    [readOidcFile], [oidcFileDoesExist] and [removeOidcFile] work on the
    file [filename] of the directory [getOidcDir] finds, and give back
    the memory of the paths they build: [writeOidcFile] leaves the text
    as the content of that file and every other path as it was,
    [oidcFileDoesExist] changes nothing, [removeOidcFile] does what
    [removeFile] does on that file, and after [readOidcFile] only the
    buffer of the content it returns is still taken. *)
Theorem oidc_file_functions_in_directory (filename text : string) (w w' : world) :
  (FileIo.writeOidcFile filename text w = Returns tt w' →
   ∃ dir, OidcFileIo.getOidcDir w = Some dir
          ∧ file_content (dir +:+ filename) w' = Some text
          ∧ w_mem w' = w_mem w
          ∧ ∀ q, components q ≠ components (dir +:+ filename) →
                 look q w' = look q w)
  ∧ (∀ b, FileIo.oidcFileDoesExist filename w = Returns b w' →
          w' = w
          ∧ ∃ dir, OidcFileIo.getOidcDir w = Some dir
                   ∧ b = FileIo.fileDoesExist (dir +:+ filename) w)
  ∧ (∀ r, FileIo.removeOidcFile filename w = Returns r w' →
          w_mem w' = w_mem w
          ∧ ∃ dir, OidcFileIo.getOidcDir w = Some dir
                   ∧ r = fst (FileIo.removeFile (dir +:+ filename) w)
                   ∧ w_root w'
                     = w_root (snd (FileIo.removeFile (dir +:+ filename) w)))
  ∧ (∀ c, FileIo.readOidcFile filename w = Returns c w' →
          w_root w' = w_root w
          ∧ ∃ dir, OidcFileIo.getOidcDir w = Some dir
                   ∧ c = file_content (dir +:+ filename) w
                   ∧ w_mem w'
                     = match c with
                       | Some content => w_mem w - (strlen content + 1)
                       | None => w_mem w
                       end).
Proof.
  split; [|split; [|split]].
  - unfold FileIo.writeOidcFile.
    destruct (FileIo.oidc_path filename w) as [path w1| |] eqn:Hp; try done.
    apply oidc_path_returns in Hp as (dir & Hdir & -> & Hmem & ->).
    destruct (FileIo.writeFile _ text _) as [[] w2| |] eqn:Hw; try done.
    intros [= <-]. exists dir. split; [done|].
    apply writeFile_returns in Hw as ([st Hres] & [r ->] & Hframe).
    split; [|split].
    + unfold file_content, resolve, FileIo.free in *.
      cbn [w_root set_mem set_root] in *. by rewrite Hres.
    + simpl. lia.
    + intros q Hq. exact (Hframe q Hq).
  - intros b. unfold FileIo.oidcFileDoesExist.
    destruct (FileIo.oidc_path filename w) as [path w1| |] eqn:Hp; try done.
    apply oidc_path_returns in Hp as (dir & Hdir & -> & Hmem & ->).
    intros [= <- <-]. split.
    + unfold FileIo.free. simpl. rewrite set_mem_set_mem.
      replace (w_mem w - _ + _) with (w_mem w) by lia. apply set_mem_same.
    + by exists dir.
  - intros r. unfold FileIo.removeOidcFile.
    destruct (FileIo.oidc_path filename w) as [path w1| |] eqn:Hp; try done.
    apply oidc_path_returns in Hp as (dir & Hdir & -> & Hmem & ->).
    rewrite removeFile_set_mem. intros [= <- <-].
    split; [|by exists dir].
    cbn [FileIo.free w_mem set_mem]. lia.
  - intros c. unfold FileIo.readOidcFile.
    destruct (FileIo.oidc_path filename w) as [path w1| |] eqn:Hp; try done.
    apply oidc_path_returns in Hp as (dir & Hdir & -> & Hmem & ->).
    unfold FileIo.readFile, FileIo.calloc.
    change (resolve (Some (dir +:+ filename))
              (set_mem (w_mem w - (strlen (dir +:+ filename) + 1)) w))
      with (resolve (Some (dir +:+ filename)) w).
    destruct (resolve (Some (dir +:+ filename)) w) as [[st content|]|] eqn:Hres;
      try done.
    + simpl. destruct (Nat.ltb_spec (w_mem w - (strlen (dir +:+ filename) + 1))
                         (strlen content + 1)); [done|].
      destruct (negb _); [done|]. intros [= <- <-]. split; [done|].
      exists dir. unfold file_content. rewrite Hres.
      split; [done|]. split; [done|]. simpl. lia.
    + intros [= <- <-]. split; [done|]. exists dir.
      unfold file_content. rewrite Hres.
      split; [done|]. split; [done|]. simpl. lia.
Qed.

Lemma oidc_file_functions_in_directory_witness :
  (∃ w', FileIo.writeOidcFile "work" "new" legacy_store = Returns tt w'
         ∧ file_content "/home/u/.oidc-agent/work" w' = Some "new"
         ∧ w_mem w' = 4096)
  ∧ FileIo.oidcFileDoesExist "work" legacy_store = Returns 1%Z legacy_store
  ∧ FileIo.oidcFileDoesExist "none" legacy_store = Returns 0%Z legacy_store.
Proof.
  split; [|split; reflexivity].
  destruct (FileIo.writeOidcFile "work" "new" legacy_store) as [[] w'| |] eqn:Hw;
    [|vm_compute in Hw; discriminate..].
  exists w'. split; [reflexivity|].
  destruct (oidc_file_functions_in_directory "work" "new" legacy_store w')
    as (Hwrite & _).
  destruct (Hwrite Hw) as (dir & Hdir & Hcontent & Hmem & _).
  injection Hdir as <-. split; [exact Hcontent|exact Hmem].
Defined.

End PlainOidcFileFacts.
